(** * Spectra: the restarted Krylov-Schur solver base class

    A shallow embedding of [include/Spectra/KrylovSchurGEigsBase.h] and the
    properties of its restart cycle: construction, initialisation, the
    convergence test, the restart-size heuristic, the conjugate-pair pass,
    the Schur reordering and the [compute] loop with its accessors.

    Conventions.
    - [Eigen::Index] values that take part in arithmetic (sizes, counters,
      [maxit]) are [Z]; positions inside a container are [nat].  The
      constructor bounds keep every intermediate value far from the ends of
      the 64-bit range, so no wrap-around is written out.
    - A dense Eigen matrix is the list of its columns (Eigen stores
      column-major, and [compute] relies on it when it maps the leading
      columns of [X]); a vector is a list.
    - The scalar type is a parameter with the operations the header applies
      to it; [std::complex<Scalar>] is a pair (real part, imaginary part).
    - Everything the header calls but does not define (the factorization
      engine, the dense Eigen kernels, the sort functor, the random
      generator) is a field of [Kernels].
    - A C++ exception leaves the object with the mutations made so far, so
      [compute] returns the solver together with how the call ended. *)

From Stdlib Require Import ZArith List Bool Lia Permutation.
Import ListNotations.
Local Open Scope Z_scope.

(** ** Enumerations *)

(** [Util/CompInfo.h]: the values this header uses. *)
Inductive CompInfo : Type :=
| Successful
| NotComputed
| NotConverging.

(** [Util/SelectionRule.h]: the values this header names. The first six are
    the cases of [which_eigenvalues]; the two algebraic rules appear as the
    default of the [sorting] argument of [compute] and in its documentation. *)
Inductive SortRule : Type :=
| LargestMagn
| LargestReal
| LargestImag
| LargestAlge
| SmallestMagn
| SmallestReal
| SmallestImag
| SmallestAlge.

(** ** Scalars *)

Class ScalarOps (S : Type) : Type := {
  szero : S;
  sadd : S -> S -> S;
  ssub : S -> S -> S;
  smul : S -> S -> S;
  sltb : S -> S -> bool;          (* operator< *)
  seqb : S -> S -> bool;          (* operator== *)
  eps23 : S;                      (* pow(TypeTraits<Scalar>::epsilon(), Scalar(2) / 3) *)
  cabs : S * S -> S               (* std::abs on std::complex<Scalar> *)
}.

(** The order laws of an exact scalar type; IEEE NaNs break them. *)
Class ScalarOrder (S : Type) `{ScalarOps S} : Prop := {
  sltb_asym : forall a b : S, sltb a b = true -> sltb b a = false;
  sltb_tricho : forall a b : S, sltb a b = false -> sltb b a = false -> a = b
}.

(** ** The collaborators of the header *)

Class Kernels (S Op BOp Fac Rot : Type) : Type := {
  (* operator *)
  rows : Op -> Z;
  (* LinAlg/KrylovSchur.h; the operation counter is passed by reference *)
  KrylovFac : Op -> BOp -> Z -> Fac;
  fac_init : list S -> Fac -> Z -> Fac * Z;
  factorize_from : Z -> Z -> Fac -> Z -> bool * Fac * Z;
  matrix_H : Fac -> list (list S);
  matrix_V : Fac -> list (list S);
  swap_H : list (list S) -> Fac -> Fac;
  swap_V : list (list S) -> Fac -> Fac;
  (* Eigen/Eigenvalues: (matrixU, matrixT) and (eigenvalues, eigenvectors) *)
  RealSchur : list (list S) -> list (list S) * list (list S);
  EigenSolver : list (list S) -> list (S * S) * list (list (S * S));
  (* Eigen/Jacobi *)
  makeGivens : S -> S -> Rot;
  adjoint : Rot -> Rot;
  applyOnTheLeft : nat -> nat -> Rot -> list (list S) -> list (list S);
  applyOnTheRight : nat -> nat -> Rot -> list (list S) -> list (list S);
  (* Util/SelectionRule.h: SortEigenvalue<Complex, Rule>(data, n).swap(ind) *)
  SortEigenvalue : SortRule -> list (S * S) -> Z -> list nat;
  (* Util/SimpleRandom.h: SimpleRandom<Scalar>(seed).random_vec(len) *)
  random_vec : Z -> Z -> list S;
  (* contents of freshly allocated, not yet assigned Eigen storage *)
  fresh_cvector : Z -> list (S * S);
  fresh_cmatrix : Z -> Z -> list (list (S * S))
}.

(** ** Generic list helpers *)

Section Lists.
Context {A : Type}.

(** [l(i) = x]; a position outside the container is not written. *)
Fixpoint set_nth (i : nat) (x : A) (l : list A) : list A :=
  match i, l with
  | O, _ :: r => x :: r
  | S i', a :: r => a :: set_nth i' x r
  | _, [] => []
  end.

(** [swap(l(k), l(k + 1))]. *)
Fixpoint swap_at (k : nat) (l : list A) : list A :=
  match k, l with
  | O, a :: b :: r => b :: a :: r
  | S k', a :: r => a :: swap_at k' r
  | _, _ => l
  end.

(** Assignment to a leading segment: the first [length src] entries of
    [dst] are replaced by [src]. *)
Definition overwrite (src dst : list A) : list A :=
  src ++ skipn (length src) dst.
End Lists.

Definition count_true (l : list bool) : nat := length (filter (fun b => b) l).

(** ** Dense matrices, column-major *)

Section Dense.
Context {S : Type} `{SO : ScalarOps S}.

Definition Vector := list S.
Definition Matrix := list (list S).
Definition Complex := (S * S)%type.
Definition ComplexVector := list Complex.
Definition ComplexMatrix := list (list Complex).

Definition smax (a b : S) : S := if sltb a b then b else a.   (* std::max *)

Definition nrows {E : Type} (M : list (list E)) : nat := length (hd [] M).
Definition ncols {E : Type} (M : list (list E)) : nat := length M.

Definition coeff (M : Matrix) (i j : nat) : S := nth i (nth j M []) szero.

Definition leftCols {E : Type} (k : nat) (M : list (list E)) : list (list E) :=
  firstn k M.

Definition topLeftCorner (r c : nat) (M : Matrix) : Matrix :=
  map (firstn r) (firstn c M).

(** [M.bottomRows(1)], as a row vector. *)
Definition bottomRow (M : Matrix) : Vector :=
  map (fun col => last col szero) M.

Definition diagonal (M : Matrix) : Vector :=
  map (fun j => coeff M j j) (seq 0 (Nat.min (nrows M) (ncols M))).

Definition dot (u v : Vector) : S :=
  fold_left sadd (map (fun p => smul (fst p) (snd p)) (combine u v)) szero.

(** A real vector against a complex one, as Eigen's mixed product does it. *)
Definition cdot (u : Vector) (v : ComplexVector) : Complex :=
  (dot u (map fst v), dot u (map snd v)).

Definition row_of (M : Matrix) (i : nat) : Vector :=
  map (fun col => nth i col szero) M.

Definition rows_of (M : Matrix) : list Vector :=
  map (row_of M) (seq 0 (nrows M)).

Definition mat_mul (A B : Matrix) : Matrix :=
  map (fun bcol => map (fun arow => dot arow bcol) (rows_of A)) B.

Definition mat_mul_c (A : Matrix) (B : ComplexMatrix) : ComplexMatrix :=
  map (fun bcol => map (fun arow => cdot arow bcol) (rows_of A)) B.

Definition row_mul (r : Vector) (B : Matrix) : Vector := map (dot r) B.

Definition row_mul_c (r : Vector) (B : ComplexMatrix) : ComplexVector :=
  map (cdot r) B.

Definition real_part (M : ComplexMatrix) : Matrix := map (map fst) M.

(** [M.topLeftCorner(k, k) = B] for a block [B] of [k] columns. *)
Definition set_topLeftCorner (B M : Matrix) : Matrix :=
  map (fun j => if (j <? length B)%nat
                then overwrite (nth j B []) (nth j M [])
                else nth j M [])
      (seq 0 (length M)).

(** [M.block(i, 0, 1, length r) = r]. *)
Definition set_row_block (i : nat) (r : Vector) (M : Matrix) : Matrix :=
  map (fun j => if (j <? length r)%nat
                then set_nth i (nth j r szero) (nth j M [])
                else nth j M [])
      (seq 0 (length M)).

(** [reorder.inverse() * v] with [reorder.indices() = ind]: entry [j] of
    the result is entry [ind(j)] of [v]. The same selection on the columns
    of a matrix is [M * reorder]. *)
Definition permute {E : Type} (dflt : E) (ind : list nat) (v : list E) : list E :=
  map (fun p => nth p v dflt) ind.
End Dense.

(** ** The solver object *)

Section Solver.
Context {S Op BOp Fac Rot : Type}.
Context `{SO : ScalarOps S} `{K : Kernels S Op BOp Fac Rot}.

Record Solver : Type := mkSolver {
  m_op_container : list Op;
  m_op : Op;                     (* matrix operator for A *)
  m_n : Z;                       (* dimension of matrix A *)
  m_nev : Z;                     (* number of eigenvalues requested *)
  m_ncv : Z;                     (* dimension of Krylov subspace *)
  m_nmatop : Z;                  (* number of matrix operations called *)
  m_niter : Z;                   (* number of restarting iterations *)
  m_fac : Fac;                   (* the factorization *)
  m_evals : list S;              (* eigenvalues *)
  m_evecs : list (list S);       (* eigenvectors *)
  m_evals_conv : list bool;      (* convergence of the Ritz values *)
  m_info : CompInfo              (* status of the computation *)
}.

Definition set_nmatop (x : Z) (s : Solver) : Solver :=
  mkSolver (m_op_container s) (m_op s) (m_n s) (m_nev s) (m_ncv s) x (m_niter s)
           (m_fac s) (m_evals s) (m_evecs s) (m_evals_conv s) (m_info s).
Definition set_niter (x : Z) (s : Solver) : Solver :=
  mkSolver (m_op_container s) (m_op s) (m_n s) (m_nev s) (m_ncv s) (m_nmatop s) x
           (m_fac s) (m_evals s) (m_evecs s) (m_evals_conv s) (m_info s).
Definition set_fac (x : Fac) (s : Solver) : Solver :=
  mkSolver (m_op_container s) (m_op s) (m_n s) (m_nev s) (m_ncv s) (m_nmatop s)
           (m_niter s) x (m_evals s) (m_evecs s) (m_evals_conv s) (m_info s).
Definition set_evals (x : list S) (s : Solver) : Solver :=
  mkSolver (m_op_container s) (m_op s) (m_n s) (m_nev s) (m_ncv s) (m_nmatop s)
           (m_niter s) (m_fac s) x (m_evecs s) (m_evals_conv s) (m_info s).
Definition set_evecs (x : list (list S)) (s : Solver) : Solver :=
  mkSolver (m_op_container s) (m_op s) (m_n s) (m_nev s) (m_ncv s) (m_nmatop s)
           (m_niter s) (m_fac s) (m_evals s) x (m_evals_conv s) (m_info s).
Definition set_evals_conv (x : list bool) (s : Solver) : Solver :=
  mkSolver (m_op_container s) (m_op s) (m_n s) (m_nev s) (m_ncv s) (m_nmatop s)
           (m_niter s) (m_fac s) (m_evals s) (m_evecs s) x (m_info s).
Definition set_info (x : CompInfo) (s : Solver) : Solver :=
  mkSolver (m_op_container s) (m_op s) (m_n s) (m_nev s) (m_ncv s) (m_nmatop s)
           (m_niter s) (m_fac s) (m_evals s) (m_evecs s) (m_evals_conv s) x.

(** [std::invalid_argument] is the only exception the header throws. *)
Inductive Exn : Type := invalid_argument.

(** *** Constructors

    The member initialisers run first, the range checks in the body
    afterwards; a throw from the body means no object exists. Vectors and
    matrices that are only declared are empty. *)
Definition construct (container : list Op) (op : Op) (Bop : BOp) (nev ncv : Z)
  : Exn + Solver :=
  let n := rows op in
  let ncv' := if ncv >? n then n else ncv in
  let s := mkSolver container op n nev ncv' 0 0 (KrylovFac op Bop ncv')
                    [] [] [] NotComputed in
  if (nev <? 1) || (nev >? m_n s - 1) then inl invalid_argument
  else if (ncv <=? nev) || (ncv >? m_n s) then inl invalid_argument
  else inr s.

(** If [op] is an lvalue. *)
Definition KrylovSchurGEigsBase_lvalue (op : Op) (Bop : BOp) (nev ncv : Z)
  : Exn + Solver :=
  construct [] op Bop nev ncv.

(** If [op] is an rvalue: it is moved into the container first. *)
Definition create_op_container (rval : Op) : list Op := [rval].

Definition KrylovSchurGEigsBase_rvalue (op : Op) (Bop : BOp) (nev ncv : Z)
  : Exn + Solver :=
  let container := create_op_container op in
  construct container (hd op container) Bop nev ncv.

(** *** init *)

Definition init (init_resid : list S) (s : Solver) : Solver :=
  let ncv := Z.to_nat (m_ncv s) in
  let nev := Z.to_nat (m_nev s) in
  let s := set_evals (repeat szero ncv) s in
  let s := set_evecs (repeat (repeat szero ncv) nev) s in
  let s := set_evals_conv (repeat false nev) s in
  let s := set_nmatop 0 s in
  let s := set_niter 0 s in
  let v0 := firstn (Z.to_nat (m_n s)) init_resid in
  let '(fac, nmatop) := fac_init v0 (m_fac s) (m_nmatop s) in
  set_nmatop nmatop (set_fac fac s).

Definition init_random (s : Solver) : Solver :=
  let init_resid := random_vec 0 (m_n s) in
  init init_resid s.

(** *** num_converged *)

Definition num_converged (tol : S) (evals : list (S * S)) (res : list S)
                         (s : Solver) : Z * Solver :=
  let nev := Z.to_nat (m_nev s) in
  let thresh := map (fun x => smul tol (smax (cabs x) eps23)) (firstn nev evals) in
  let conv := map (fun p => sltb (fst p) (snd p)) (combine (firstn nev res) thresh) in
  let s := set_evals_conv conv s in
  (Z.of_nat (count_true (m_evals_conv s)), s).

(** *** nev_adjusted; [/] on [Index] truncates *)

Definition nev_adjusted (s : Solver) (nconv nconvold : Z) : Z :=
  let nev_new := m_nev s + Z.min nconv (Z.quot (m_ncv s - m_nev s) 2) in
  let nev_new := if (nev_new =? 1) && (m_ncv s >? 3)
                 then Z.quot (m_ncv s) 2 else nev_new in
  let nev_new := if (nev_new + 1 <? m_ncv s) && (nconvold >? nconv)
                 then nev_new + 1 else nev_new in
  nev_new.

(** *** ordschur *)

(** The two passes that fill [permutation]; the vector is allocated with
    [select.size()] entries, each of which one of the passes writes. *)
Definition fill_step (want : bool) (select : list bool)
                     (st : list nat * nat) (j : nat) : list nat * nat :=
  let '(permutation, ind) := st in
  if Bool.eqb (nth j select false) want
  then (set_nth j ind permutation, Datatypes.S ind)
  else (permutation, ind).

Definition fill_pass (want : bool) (select : list bool)
                     (st : list nat * nat) : list nat * nat :=
  fold_left (fill_step want select) (seq 0 (length select)) st.

Definition build_permutation (select : list bool) : list nat :=
  let permutation := repeat O (length select) in
  let ind := O in
  let st := fill_pass true select (permutation, ind) in
  let st := fill_pass false select st in
  fst st.

(** [for (j = i; j < permutation.size(); j++) if (permutation(j) == i) break;]
    the value of [j] after the loop, [permutation.size()] when no entry
    matches. The argument is the part of the vector from position [j] on. *)
Fixpoint find_from (i j : nat) (tail : list nat) : nat :=
  match tail with
  | [] => j
  | p :: tail' => if Nat.eqb p i then j else find_from i (Datatypes.S j) tail'
  end.

Definition find_target (i : nat) (permutation : list nat) : nat :=
  find_from i i (skipn i permutation).

(** The body of the innermost loop, at position [k]. *)
Definition rotate_at (k : nat) (st : Matrix * Matrix * list nat)
  : Matrix * Matrix * list nat :=
  let '(U, T, permutation) := st in
  let rotation :=
    makeGivens (coeff T k (k + 1)) (ssub (coeff T (k + 1) (k + 1)) (coeff T k k)) in
  let T := applyOnTheLeft k (k + 1) (adjoint rotation) T in
  let T := applyOnTheRight k (k + 1) rotation T in
  let U := applyOnTheRight k (k + 1) rotation U in
  (U, T, swap_at k permutation).

(** [for (k = j - 1; k >= i; k--)]: the positions visited, in order. *)
Definition down_range (i j : nat) : list nat := rev (seq i (j - i)).

Definition ordschur_outer (st : Matrix * Matrix * list nat) (i : nat)
  : Matrix * Matrix * list nat :=
  let j := find_target i (snd st) in
  fold_left (fun st k => rotate_at k st) (down_range i j) st.

Definition ordschur_run (U T : Matrix) (select : list bool)
  : Matrix * Matrix * list nat :=
  let permutation := build_permutation select in
  fold_left ordschur_outer (seq 0 (length permutation - 1)) (U, T, permutation).

Definition ordschur (U T : Matrix) (select : list bool) : Matrix * Matrix :=
  fst (ordschur_run U T select).

(** *** which_eigenvalues (the base-class version) *)

Definition which_eigenvalues (evals : list (S * S)) (sort_rule : SortRule)
                             (s : Solver) : Exn + list nat :=
  match sort_rule with
  | LargestMagn => inr (SortEigenvalue LargestMagn evals (m_ncv s))
  | LargestReal => inr (SortEigenvalue LargestReal evals (m_ncv s))
  | LargestImag => inr (SortEigenvalue LargestImag evals (m_ncv s))
  | SmallestMagn => inr (SortEigenvalue SmallestMagn evals (m_ncv s))
  | SmallestReal => inr (SortEigenvalue SmallestReal evals (m_ncv s))
  | SmallestImag => inr (SortEigenvalue SmallestImag evals (m_ncv s))
  | _ => inl invalid_argument
  end.

(** *** compute *)

(** [select(ind_sel.head(nev_new)).setConstant(true)]. *)
Definition mark_selected (idx : list nat) (select : list bool) : list bool :=
  fold_left (fun sel p => set_nth p true sel) idx select.

(** One turn of the loop that keeps conjugate pairs together: [*it] is
    [i], the state is the mask and [nev_new]. *)
Definition pair_step (T : Matrix) (ncv : Z) (st : list bool * Z) (i : nat)
  : list bool * Z :=
  let '(select, nev_new) := st in
  let '(select, nev_new) :=
    if (Z.of_nat i + 1 <? ncv)
       && negb (seqb (coeff T (i + 1) i) szero)
       && negb (nth (i + 1) select false)
    then (set_nth (i + 1) true select, nev_new + 1)
    else (select, nev_new) in
  if (0 <? i)%nat
     && negb (seqb (coeff T i (i - 1)) szero)
     && negb (nth (i - 1) select false)
  then (set_nth (i - 1) true select, nev_new + 1)
  else (select, nev_new).

Definition conjugate_pairs (T : Matrix) (ncv : Z) (ind_sel : list nat)
                           (st : list bool * Z) : list bool * Z :=
  fold_left (pair_step T ncv) ind_sel st.

(** The locals of [compute] that live across iterations. *)
Record Locals : Type := mkLocals {
  nev_new : Z;
  sizeV : Z;
  ind : list nat;
  d : list (S * S);
  U : list (list (S * S));
  nconv : Z
}.

(** How one turn of the loop body ends. In a restart the row
    [H.block(nev_new, 0, 1, nev_new)] is computed from [H.bottomRows(1)]
    before it is stored; the two rows are different ones as long as
    [nev_new < ncv]. *)
Inductive Flow : Type :=
| Next (l : Locals) (s : Solver)      (* reaches the end of the body *)
| Break (l : Locals) (s : Solver)     (* break *)
| Return (r : Z) (s : Solver)         (* return r *)
| Throw (e : Exn) (s : Solver).       (* an exception leaves compute *)

Definition compute_body (selection : SortRule) (maxit : Z) (tol : S)
                        (i : Z) (l : Locals) (s : Solver) : Flow :=
  let ncv := Z.to_nat (m_ncv s) in
  (* the m-step factorization *)
  let '(stopAlgorithm, fac, nmatop) :=
    factorize_from (sizeV l) (m_ncv s) (m_fac s) (m_nmatop s) in
  let s := set_nmatop nmatop (set_fac fac s) in
  if stopAlgorithm : bool then
    let s := set_evals [] s in
    let s := set_evecs [] s in
    Return 0 s
  else
    let H := matrix_H (m_fac s) in
    (* Schur decomposition *)
    let '(X, T) := RealSchur (topLeftCorner ncv ncv H) in
    (* eigenvalues *)
    let '(eigenvalues, eigenvectors) := EigenSolver T in
    let d := eigenvalues in
    let U := mat_mul_c X eigenvectors in
    (* residuals *)
    let res := map cabs (row_mul_c (bottomRow H) U) in
    (* sort eigenvalues and residuals *)
    match which_eigenvalues d selection s with
    | inl e => Throw e s
    | inr ind =>
      let d := permute (szero, szero) ind d in
      let res := permute szero ind res in
      (* number of converged eigenpairs *)
      let nconvold := nconv l in
      let '(nconv, s) := num_converged tol d res s in
      if (nconv >=? m_nev s) || (i =? maxit) then
        Break (mkLocals (nev_new l) (sizeV l) ind d U nconv) s
      else
        let nev_new := nev_adjusted s nconv nconvold in
        (* original ordering of the eigenvalues *)
        let d := map (fun x => (x, szero)) (diagonal T) in
        (* the Boolean select vector *)
        match which_eigenvalues d selection s with
        | inl e => Throw e s
        | inr ind =>
          let select := repeat false ncv in
          let select := mark_selected (firstn (Z.to_nat nev_new) ind) select in
          (* both parts of a conjugate pair *)
          let '(select, nev_new) :=
            conjugate_pairs T (m_ncv s) ind (select, nev_new) in
          (* reorder X and T *)
          let '(X, T) := ordschur X T select in
          (* store variables for the next iteration *)
          let k := Z.to_nat nev_new in
          let Xk := leftCols k X in
          let H := set_topLeftCorner (topLeftCorner k k T) H in
          let H := set_row_block k (row_mul (bottomRow H) Xk) H in
          let V := matrix_V (m_fac s) in
          let V := overwrite (mat_mul V Xk) V in
          let s := set_fac (swap_H H (m_fac s)) s in
          let s := set_fac (swap_V V (m_fac s)) s in
          Next (mkLocals nev_new nev_new ind d U nconv) s
        end
    end.

(** [for (i = 0; i < maxit; i++)]: [fuel] is the number of turns left
    before the loop condition fails; the first component of a normal exit
    is the value [i] has after the loop. *)
Inductive LoopExit : Type :=
| Fell (i : Z) (l : Locals) (s : Solver)
| Returned (r : Z) (s : Solver)
| Threw (e : Exn) (s : Solver).

Fixpoint compute_loop (selection : SortRule) (maxit : Z) (tol : S)
                      (fuel : nat) (i : Z) (l : Locals) (s : Solver) : LoopExit :=
  match fuel with
  | O => Fell i l s
  | Datatypes.S fuel' =>
    match compute_body selection maxit tol i l s with
    | Next l' s' => compute_loop selection maxit tol fuel' (i + 1) l' s'
    | Break l' s' => Fell i l' s'
    | Return r s' => Returned r s'
    | Throw e s' => Threw e s'
    end
  end.

(** The code after the loop. [U * reorder] is the gather of the columns
    [ind(0), ind(1), ...] when [ind] is a permutation, which is what
    [which_eigenvalues] has stored there once a turn of the loop has run.
    With no turn ([maxit <= 0]) [ind] still holds the zeros it was created
    with; the source multiplies in place, following the cycles of the
    indices, which presupposes a permutation, so the gather below stands
    for the source only after a turn. *)
Definition export (i : Z) (l : Locals) (s : Solver) : Z * Solver :=
  let nev := Z.to_nat (m_nev s) in
  let s := set_evals (map fst (firstn nev (d l))) s in
  let U := permute [] (ind l) (U l) in
  let s := set_evecs (real_part (mat_mul_c (matrix_V (m_fac s)) (leftCols nev U))) s in
  let s := set_niter (m_niter s + (i + 1)) s in
  let s := set_info (if nconv l >=? m_nev s then Successful else NotConverging) s in
  (Z.min (m_nev s) (nconv l), s).

Definition initial_locals (s : Solver) : Locals :=
  mkLocals (m_nev s) 0 (repeat O (Z.to_nat (m_ncv s)))
           (fresh_cvector (m_ncv s)) (fresh_cmatrix (m_ncv s) (m_ncv s)) 0.

(** The result of a call: the value returned or the exception thrown,
    with the solver as the call leaves it. [sorting] is accepted and not
    used. *)
Definition compute (selection : SortRule) (maxit : Z) (tol : S)
                   (sorting : SortRule) (s : Solver) : (Exn + Z) * Solver :=
  match compute_loop selection maxit tol (Z.to_nat maxit) 0 (initial_locals s) s with
  | Fell i l s' => let '(r, s'') := export i l s' in (inr r, s'')
  | Returned r s' => (inr r, s')
  | Threw e s' => (inl e, s')
  end.

(** *** Accessors *)

Definition info (s : Solver) : CompInfo := m_info s.
Definition num_iterations (s : Solver) : Z := m_niter s.
Definition num_operations (s : Solver) : Z := m_nmatop s.
Definition eigenvalues (s : Solver) : list S := m_evals s.

(** [eigenvectors(nvec)]; a column count is not negative: for a negative
    [nvec] the source asks Eigen for a block of negative size, which this
    definition does not model. *)
Definition eigenvectors_n (nvec : Z) (s : Solver) : list (list S) :=
  let nconv := Z.of_nat (count_true (m_evals_conv s)) in
  let nvec := Z.min nvec nconv in
  leftCols (Z.to_nat nvec) (matrix_V (m_fac s)).

Definition eigenvectors (s : Solver) : list (list S) :=
  eigenvectors_n (m_nev s) s.

End Solver.

Arguments Solver : clear implicits.
Arguments Locals : clear implicits.
Arguments Flow : clear implicits.
Arguments LoopExit : clear implicits.

(** ** A small exact instance

    Integer scalars and collaborators simple enough to evaluate: an engine
    that holds a prepared factorization, Schur and eigen kernels that are
    exact on the diagonal matrices used below, Eigen's plane rotations in
    the two cases that need no square root, and a stable sort. The concrete
    runs further down are made on it. *)

Module Toy.

#[export] Instance Z_scalar : ScalarOps Z := {|
  szero := 0;
  sadd := Z.add;
  ssub := Z.sub;
  smul := Z.mul;
  sltb := Z.ltb;
  seqb := Z.eqb;
  eps23 := 1;
  cabs := fun c => Z.sqrt (fst c * fst c + snd c * snd c)
|}.

(** An operator stands for the factorization the engine reaches on it:
    [H] with its extra last row, the basis [V], and the retained size from
    which the basis cannot be extended any more, if there is one. *)
Record Operator : Type := mkOperator {
  op_n : Z;
  op_H : list (list Z);
  op_V : list (list Z);
  op_stops_from : option Z
}.

Record Factorization : Type := mkFac {
  fac_H : list (list Z);
  fac_V : list (list Z);
  fac_stops_from : option Z
}.

Definition cannot_extend (fac : Factorization) (from_k : Z) : bool :=
  match fac_stops_from fac with
  | Some k => k <=? from_k
  | None => false
  end.

Fixpoint identity (n : nat) : list (list Z) :=
  match n with
  | O => []
  | Datatypes.S n' => (1 :: repeat 0 n') :: map (cons 0) (identity n')
  end.

Definition givens (p q : Z) : Z * Z :=
  if q =? 0 then (if p <? 0 then -1 else 1, 0)
  else if p =? 0 then (0, if q <? 0 then 1 else -1)
  else (1, 0).

(** [x(i) = c x(i) + s y(i)], [y(i) = - s x(i) + c y(i)]. *)
Definition rotate_pair (j : Z * Z) (x y : list Z) : list Z * list Z :=
  let '(c, s) := j in
  (map (fun p => c * fst p + s * snd p) (combine x y),
   map (fun p => - s * fst p + c * snd p) (combine x y)).

Definition rotate_columns (p q : nat) (j : Z * Z) (M : list (list Z))
  : list (list Z) :=
  let '(x, y) := rotate_pair (fst j, - snd j) (nth p M []) (nth q M []) in
  set_nth q y (set_nth p x M).

Definition rotate_rows (p q : nat) (j : Z * Z) (M : list (list Z))
  : list (list Z) :=
  map (fun col =>
         let x := nth p col 0 in
         let y := nth q col 0 in
         set_nth q (- snd j * x + fst j * y)
                 (set_nth p (fst j * x + snd j * y) col)) M.

Definition sort_key (rule : SortRule) (x : Z * Z) : Z :=
  match rule with
  | LargestMagn => - cabs x
  | LargestReal | LargestAlge => - fst x
  | LargestImag => - Z.abs (snd x)
  | SmallestMagn => cabs x
  | SmallestReal | SmallestAlge => fst x
  | SmallestImag => Z.abs (snd x)
  end.

Fixpoint insert_by (key : nat -> Z) (j : nat) (l : list nat) : list nat :=
  match l with
  | [] => [j]
  | h :: t => if key j <? key h then j :: l else h :: insert_by key j t
  end.

(** Indices [0 .. n-1] in increasing key order, equal keys in index order. *)
Definition sort_indices (rule : SortRule) (v : list (Z * Z)) (n : Z) : list nat :=
  fold_left (fun acc j => insert_by (fun i => sort_key rule (nth i v (0, 0))) j acc)
            (seq 0 (Z.to_nat n)) [].

#[export] Instance kernels : Kernels Z Operator unit Factorization (Z * Z) := {|
  rows := op_n;
  KrylovFac := fun op _ _ => mkFac (op_H op) (op_V op) (op_stops_from op);
  fac_init := fun _ fac counter => (fac, counter + 1);
  factorize_from := fun from_k to_m fac counter =>
                      (cannot_extend fac from_k, fac, counter + (to_m - from_k));
  matrix_H := fac_H;
  matrix_V := fac_V;
  swap_H := fun H fac => mkFac H (fac_V fac) (fac_stops_from fac);
  swap_V := fun V fac => mkFac (fac_H fac) V (fac_stops_from fac);
  RealSchur := fun M => (identity (length M), M);
  EigenSolver := fun T => (map (fun x => (x, 0)) (diagonal T),
                           map (map (fun x => (x, 0))) (identity (length T)));
  makeGivens := givens;
  adjoint := fun j => (fst j, - snd j);
  applyOnTheLeft := rotate_rows;
  applyOnTheRight := rotate_columns;
  SortEigenvalue := sort_indices;
  random_vec := fun _ len => repeat 1 (Z.to_nat len);
  fresh_cvector := fun n => repeat (0, 0) (Z.to_nat n);
  fresh_cmatrix := fun r c => repeat (repeat (0, 0) (Z.to_nat r)) (Z.to_nat c)
|}.

(** The operator [diag(1, 2)] of dimension 2 with the basis [V = I]:
    [H] is [diag(1, 2)] over a zero last row. *)
Definition diag12 : Operator :=
  mkOperator 2 [[1; 0; 0]; [0; 2; 0]] [[1; 0]; [0; 1]] None.

(** The same operator with an engine that cannot extend a basis it has
    contracted: the two basis vectors already span the whole space. *)
Definition stalling : Operator :=
  mkOperator 2 [[1; 0; 0]; [0; 2; 0]] [[1; 0]; [0; 1]] (Some 1).

(** An operator on which the basis cannot be extended at all. *)
Definition degenerate : Operator :=
  mkOperator 2 [[0; 0; 0]; [0; 0; 0]] [[1; 0]; [0; 1]] (Some 0).

(** An operator of dimension 5; only its size is looked at. *)
Definition wide : Operator := mkOperator 5 [] [] None.

(** The solvers the constructor yields for [nev = 1] with [ncv = 2] on the
    first three operators, and [ncv = 4] on the last. *)
Definition solver12 : Solver Z Operator Factorization :=
  mkSolver [] diag12 2 1 2 0 0 (mkFac (op_H diag12) (op_V diag12) None)
           [] [] [] NotComputed.

Definition solver_stalling : Solver Z Operator Factorization :=
  mkSolver [] stalling 2 1 2 0 0 (mkFac (op_H stalling) (op_V stalling) (Some 1))
           [] [] [] NotComputed.

Definition solver_degenerate : Solver Z Operator Factorization :=
  mkSolver [] degenerate 2 1 2 0 0 (mkFac (op_H degenerate) (op_V degenerate) (Some 0))
           [] [] [] NotComputed.

Definition solver14 : Solver Z Operator Factorization :=
  mkSolver [] wide 5 1 4 0 0 (mkFac [] [] None) [] [] [] NotComputed.

(** [init()] on [solver12], then a run that converges in its first turn,
    and a run whose cap of one turn is used up without convergence. *)
Definition seeded12 : Solver Z Operator Factorization := init_random solver12.

Definition converged_run : (Exn + Z) * Solver Z Operator Factorization :=
  compute LargestMagn 1000 1 LargestAlge seeded12.

Definition capped_run : (Exn + Z) * Solver Z Operator Factorization :=
  compute LargestMagn 1 0 LargestAlge seeded12.

(** The Ritz values of the only turn of these runs, and their order under
    the selection rule. *)
Definition ritz_values : list (Z * Z) :=
  fst (EigenSolver (snd (RealSchur (topLeftCorner 2 2 (matrix_H (m_fac seeded12)))))).

Definition ritz_vectors : list (list (Z * Z)) :=
  let XT := RealSchur (topLeftCorner 2 2 (matrix_H (m_fac seeded12))) in
  mat_mul_c (fst XT) (snd (EigenSolver (snd XT))).

Definition ritz_order : list nat := sort_indices LargestMagn ritz_values 2.

(** On the stalling operator: [init()], a run that uses up its cap of one
    turn, and a second call with a cap of two turns on the solver the first
    leaves; the second call restarts once and then meets the breakdown. *)
Definition seeded_stalling : Solver Z Operator Factorization :=
  init_random solver_stalling.

Definition first_call : (Exn + Z) * Solver Z Operator Factorization :=
  compute LargestMagn 1 0 LargestAlge seeded_stalling.

Definition second_call : (Exn + Z) * Solver Z Operator Factorization :=
  compute LargestMagn 2 0 LargestAlge (snd first_call).

(** A quasi-triangular matrix that is one 2x2 block. *)
Definition block22 : list (list Z) := [[1; 1]; [-1; 1]].

(** A quasi-triangular matrix of order 3: the entry 1 at position 0 and a
    2x2 block at positions 1 and 2. *)
Definition block3 : list (list Z) := [[1; 0; 0]; [0; 1; 1]; [0; -1; 1]].

(** A triangular (here diagonal) Schur factor. *)
Definition diag22 : list (list Z) := [[1; 0]; [0; 2]].

(** An operator of dimension 1. *)
Definition single : Operator := mkOperator 1 [] [] None.

(** The solver the rvalue constructor yields on [diag12]. *)
Definition solver12_owned : Solver Z Operator Factorization :=
  mkSolver [diag12] diag12 2 1 2 0 0 (mkFac (op_H diag12) (op_V diag12) None)
           [] [] [] NotComputed.

End Toy.

(** ** Specification-side definitions *)

Section Specification.
Context {S Op BOp Fac Rot : Type}.
Context `{SO : ScalarOps S} `{K : Kernels S Op BOp Fac Rot}.

Local Abbreviation Solver := (Solver S Op Fac).
Local Abbreviation Locals := (Locals S).

(** The ranges the constructors enforce; the three members are const. *)
Definition constructed (s : Solver) : Prop :=
  1 <= m_nev s <= m_n s - 1 /\ m_nev s < m_ncv s <= m_n s.

(** The six rules [which_eigenvalues] has a case for. *)
Definition supported (rule : SortRule) : bool :=
  match rule with
  | LargestMagn | LargestReal | LargestImag
  | SmallestMagn | SmallestReal | SmallestImag => true
  | LargestAlge | SmallestAlge => false
  end.

(** The restart size as the specification words it, with floor division:
    the base value, the override, the stagnation escape. *)
Definition nev_adjusted_spec (nev ncv nconv nconv_prev : Z) : Z :=
  let base := nev + Z.min nconv ((ncv - nev) / 2) in
  let overridden := if (base =? 1) && (3 <? ncv) then ncv / 2 else base in
  if (overridden + 1 <? ncv) && (nconv <? nconv_prev)
  then overridden + 1 else overridden.

(** The convergence test of one index as the specification words it. *)
Definition converged_spec (tol : S) (d : list (S * S)) (res : list S) (j : nat)
  : bool :=
  sltb (nth j res szero) (smul tol (smax eps23 (cabs (nth j d (szero, szero))))).

(** The turns of the loop of [compute] that reach the end of the body:
    [i], the locals and the solver before and after. *)
Inductive reaches (selection : SortRule) (maxit : Z) (tol : S)
  : Z * Locals * Solver -> Z * Locals * Solver -> Prop :=
| reaches_here : forall c, reaches selection maxit tol c c
| reaches_next : forall i l s l' s' c,
    i < maxit ->
    compute_body selection maxit tol i l s = Next l' s' ->
    reaches selection maxit tol (i + 1, l', s') c ->
    reaches selection maxit tol (i, l, s) c.

(** The members a call cannot change: the operator, its container and the
    three const sizes. *)
Definition same_members (s s' : Solver) : Prop :=
  m_op_container s' = m_op_container s /\ m_op s' = m_op s /\
  m_n s' = m_n s /\ m_nev s' = m_nev s /\ m_ncv s' = m_ncv s.

(** The mask [compute] hands to the conjugate-pair pass in a restart. *)
Definition restart_mask (ncv : Z) (ind_sel : list nat) (nev_new : Z) : list bool :=
  mark_selected (firstn (Z.to_nat nev_new) ind_sel) (repeat false (Z.to_nat ncv)).

(** A 2x2 block of [T] at positions [k], [k + 1]. *)
Definition block_at (T : Matrix) (k : nat) : Prop :=
  seqb (coeff T (k + 1) k) szero = false.

(** The positions [ordschur] rotates at, in order: its loops run on the
    permutation vector alone. *)
Definition swaps_outer (st : list nat * list nat) (i : nat)
  : list nat * list nat :=
  let j := find_target i (fst st) in
  fold_left (fun st k => (swap_at k (fst st), snd st ++ [k])) (down_range i j) st.

Definition ordschur_swaps (select : list bool) : list nat :=
  let permutation := build_permutation select in
  snd (fold_left swaps_outer (seq 0 (length permutation - 1)) (permutation, [])).

(** A Givens rotation at the adjacent positions [k], [k + 1], as the
    specification describes one step of the reordering: the rotation is
    made from the 2x2 block of [T] that straddles the two positions, its
    adjoint is applied to [T] on the left, the rotation itself to [T] on
    the right and to [U] on the right. *)
Definition givens_at (UT : Matrix * Matrix) (k : nat) : Matrix * Matrix :=
  let G := makeGivens (coeff (snd UT) k (k + 1))
                      (ssub (coeff (snd UT) (k + 1) (k + 1)) (coeff (snd UT) k k)) in
  (applyOnTheRight k (k + 1) G (fst UT),
   applyOnTheRight k (k + 1) G (applyOnTheLeft k (k + 1) (adjoint G) (snd UT))).

(** Position [j] belongs to a 2x2 block of [T]: the sub-diagonal entry to
    its left or the one below it is not zero. *)
Definition in_block (T : Matrix) (ncv : Z) (j : nat) : bool :=
  ((0 <? j)%nat && negb (seqb (coeff T j (j - 1)) szero))
  || ((Z.of_nat j + 1 <? ncv) && negb (seqb (coeff T (j + 1) j) szero)).

(** The conjugate-pair pass as the specification words it: the turn of
    [pair_step] is taken for each index that is kept when the pass begins,
    in sort order, and for no other. *)
Definition conjugate_pairs_kept_only (T : Matrix) (ncv : Z) (ind_sel : list nat)
                                     (st : list bool * Z) : list bool * Z :=
  fold_left (pair_step T ncv) (filter (fun i => nth i (fst st) false) ind_sel) st.

(** Adjacent transpositions applied to a list, in order. *)
Definition apply_swaps {A : Type} (ks : list nat) (l : list A) : list A :=
  fold_left (fun l k => swap_at k l) ks l.

(** The number of positions below [j] whose flag is [want]. *)
Definition rank (want : bool) (select : list bool) (j : nat) : nat :=
  length (filter (fun i => Bool.eqb (nth i select false) want) (seq 0 j)).

(** Where a position is to go: a kept one to its rank among the kept, a
    discarded one behind all kept ones, to its rank among the discarded. *)
Definition target (select : list bool) (j : nat) : nat :=
  if nth j select false
  then rank true select j
  else (rank true select (length select) + rank false select j)%nat.

(** Original positions: the kept ones and the discarded ones, increasing. *)
Definition kept (select : list bool) : list nat :=
  filter (fun j => nth j select false) (seq 0 (length select)).
Definition discarded (select : list bool) : list nat :=
  filter (fun j => negb (nth j select false)) (seq 0 (length select)).
End Specification.

(** ** Properties *)

Section Properties.
Context {S Op BOp Fac Rot : Type}.
Context `{SO : ScalarOps S} `{K : Kernels S Op BOp Fac Rot}.

Local Abbreviation Solver := (Solver S Op Fac).
Local Abbreviation Locals := (Locals S).

(** *** Construction *)

Lemma construct_fails_iff (container : list Op) (op : Op) (Bop : BOp) (nev ncv : Z) :
  construct container op Bop nev ncv = inl invalid_argument <->
  (nev < 1 \/ nev > rows op - 1 \/ ncv <= nev \/ ncv > rows op).
Proof.
  unfold construct; cbn [m_n].
  destruct (nev <? 1) eqn:E1; destruct (nev >? rows op - 1) eqn:E2;
    destruct (ncv <=? nev) eqn:E3; destruct (ncv >? rows op) eqn:E4; cbn;
    split; intros Hx; try reflexivity; try discriminate; lia.
Qed.

Lemma construct_succeeds (container : list Op) (op : Op) (Bop : BOp) (nev ncv : Z) :
  ~ (nev < 1 \/ nev > rows op - 1 \/ ncv <= nev \/ ncv > rows op) ->
  exists s : Solver,
    construct container op Bop nev ncv = inr s /\
    m_n s = rows op /\ m_nev s = nev /\ m_ncv s = ncv /\
    m_info s = NotComputed /\ m_niter s = 0 /\ m_nmatop s = 0 /\
    m_op_container s = container /\ m_op s = op.
Proof.
  intros Hok. unfold construct; cbn [m_n].
  destruct (nev <? 1) eqn:E1; [lia|].
  destruct (nev >? rows op - 1) eqn:E2; [lia|].
  destruct (ncv <=? nev) eqn:E3; [lia|].
  destruct (ncv >? rows op) eqn:E4; [lia|].
  cbn. eexists; split; [reflexivity|]. cbn. repeat split; reflexivity.
Qed.

(** C9. Either constructor throws [std::invalid_argument] exactly when
    [nev < 1], [nev > n - 1], [ncv <= nev] or [ncv > n], where [n] is the
    dimension of the operator; in every other case it yields a solver whose
    status is [NotComputed] and whose iteration and operation counters are
    zero. *)
Theorem construction_range_check (op : Op) (Bop : BOp) (nev ncv : Z) :
  let n := rows op in
  let out_of_range := nev < 1 \/ nev > n - 1 \/ ncv <= nev \/ ncv > n in
  (KrylovSchurGEigsBase_lvalue op Bop nev ncv = inl invalid_argument <-> out_of_range) /\
  (KrylovSchurGEigsBase_rvalue op Bop nev ncv = inl invalid_argument <-> out_of_range) /\
  (~ out_of_range ->
   exists s1 s2 : Solver,
     KrylovSchurGEigsBase_lvalue op Bop nev ncv = inr s1 /\
     KrylovSchurGEigsBase_rvalue op Bop nev ncv = inr s2 /\
     info s1 = NotComputed /\ num_iterations s1 = 0 /\ num_operations s1 = 0 /\
     info s2 = NotComputed /\ num_iterations s2 = 0 /\ num_operations s2 = 0).
Proof.
  cbv zeta. unfold KrylovSchurGEigsBase_lvalue, KrylovSchurGEigsBase_rvalue.
  cbn [create_op_container hd].
  split; [apply construct_fails_iff|].
  split; [apply construct_fails_iff|].
  intros Hok.
  destruct (construct_succeeds [] op Bop nev ncv Hok) as (s1 & E1 & _ & _ & _ & I1 & N1 & M1 & _).
  destruct (construct_succeeds [op] op Bop nev ncv Hok) as (s2 & E2 & _ & _ & _ & I2 & N2 & M2 & _).
  exists s1, s2. unfold info, num_iterations, num_operations. tauto.
Qed.

Lemma constructed_of_construct (container : list Op) (op : Op) (Bop : BOp)
                               (nev ncv : Z) (s : Solver) :
  construct container op Bop nev ncv = inr s -> constructed s.
Proof.
  intros E.
  destruct (Z.ltb_spec nev 1) as [H1|H1].
  { assert (F : construct container op Bop nev ncv = inl invalid_argument)
      by (apply construct_fails_iff; lia). congruence. }
  destruct (Z_le_gt_dec nev (rows op - 1)) as [H2|H2].
  2:{ assert (F : construct container op Bop nev ncv = inl invalid_argument)
      by (apply construct_fails_iff; lia). congruence. }
  destruct (Z_lt_le_dec nev ncv) as [H3|H3].
  2:{ assert (F : construct container op Bop nev ncv = inl invalid_argument)
      by (apply construct_fails_iff; lia). congruence. }
  destruct (Z_le_gt_dec ncv (rows op)) as [H4|H4].
  2:{ assert (F : construct container op Bop nev ncv = inl invalid_argument)
      by (apply construct_fails_iff; lia). congruence. }
  destruct (construct_succeeds container op Bop nev ncv) as (s' & E' & Hn & Hnev & Hncv & _);
    [lia|].
  assert (s' = s) by congruence. subst s'.
  unfold constructed. lia.
Qed.

(** *** The restart size *)

(** C5. On a constructed solver [nev_adjusted] returns the value of the
    three steps of the specification: [nev + min(nconv, floor((ncv - nev) / 2))];
    replaced by [floor(ncv / 2)] when it is 1 and [ncv > 3]; one more when
    the result plus one is below [ncv] and [nconv_prev > nconv]. *)
Theorem nev_adjusted_refines_spec (s : Solver) (nconv nconv_prev : Z) :
  constructed s ->
  nev_adjusted s nconv nconv_prev =
  nev_adjusted_spec (m_nev s) (m_ncv s) nconv nconv_prev.
Proof.
  intros [[Hnev _] [Hncv _]].
  unfold nev_adjusted, nev_adjusted_spec.
  rewrite !Z.quot_div_nonneg by lia.
  replace (m_ncv s >? 3) with (3 <? m_ncv s) by (rewrite Z.gtb_ltb; reflexivity).
  replace (nconv_prev >? nconv) with (nconv <? nconv_prev)
    by (rewrite Z.gtb_ltb; reflexivity).
  reflexivity.
Qed.

(** C6. With [1 <= nev < ncv] and [0 <= nconv <= nev], whatever
    [nconv_prev] is, the restart size lies in [nev, ncv). *)
Theorem nev_adjusted_bounds (s : Solver) (nconv nconv_prev : Z) :
  1 <= m_nev s < m_ncv s ->
  0 <= nconv <= m_nev s ->
  m_nev s <= nev_adjusted s nconv nconv_prev < m_ncv s.
Proof.
  intros Hs Hc. unfold nev_adjusted.
  set (nev := m_nev s) in *. set (ncv := m_ncv s) in *.
  assert (Hq : 0 <= Z.quot (ncv - nev) 2 < ncv - nev).
  { rewrite Z.quot_div_nonneg by lia. split.
    - apply Z.div_pos; lia.
    - apply Z.div_lt_upper_bound; lia. }
  assert (Hh : 2 <= Z.quot ncv 2 < ncv \/ ncv <= 3).
  { destruct (Z_le_gt_dec ncv 3); [right; lia|left].
    rewrite Z.quot_div_nonneg by lia. split.
    - apply Z.div_le_lower_bound; lia.
    - apply Z.div_lt_upper_bound; lia. }
  destruct (nev + Z.min nconv (Z.quot (ncv - nev) 2) =? 1) eqn:E1;
    destruct (ncv >? 3) eqn:E2; cbn [andb];
    match goal with
    | |- context [(?a + 1 <? ncv) && ?b] =>
        destruct (Z.ltb_spec (a + 1) ncv); destruct b; cbn [andb]
    end; lia.
Qed.

(** *** The convergence test *)

Lemma smax_comm `{!ScalarOrder S} (a b : S) : smax a b = smax b a.
Proof.
  unfold smax.
  destruct (sltb a b) eqn:Eab; destruct (sltb b a) eqn:Eba; try reflexivity.
  - rewrite (sltb_asym _ _ Eab) in Eba. discriminate.
  - symmetry. apply sltb_tricho; assumption.
Qed.

Lemma count_true_shifted (l : list bool) (k : nat) :
  length (filter (fun j => nth (j - k) l false) (seq k (length l))) = count_true l.
Proof.
  revert k. induction l as [|a l IH]; intros k; [reflexivity|].
  cbn [length seq filter]. rewrite Nat.sub_diag.
  change (nth 0 (a :: l) false) with a.
  assert (E : filter (fun j => nth (j - k) (a :: l) false) (seq (Datatypes.S k) (length l))
              = filter (fun j => nth (j - Datatypes.S k) l false)
                       (seq (Datatypes.S k) (length l))).
  { apply filter_ext_in. intros j Hj. apply in_seq in Hj.
    replace (j - k)%nat with (Datatypes.S (j - Datatypes.S k)) by lia. reflexivity. }
  rewrite E. specialize (IH (Datatypes.S k)).
  unfold count_true in *. cbn [filter].
  destruct a; cbn [length]; rewrite IH; reflexivity.
Qed.

Lemma count_true_positions (l : list bool) :
  count_true l = length (filter (fun j => nth j l false) (seq 0 (length l))).
Proof.
  rewrite <- (count_true_shifted l 0). f_equal.
  apply filter_ext. intros j. rewrite Nat.sub_0_r. reflexivity.
Qed.

Lemma num_converged_frame (tol : S) (d : list (S * S)) (res : list S) (s : Solver) :
  let s' := snd (num_converged tol d res s) in
  m_n s' = m_n s /\ m_nev s' = m_nev s /\ m_ncv s' = m_ncv s /\
  m_nmatop s' = m_nmatop s /\ m_niter s' = m_niter s /\ m_fac s' = m_fac s /\
  m_evals s' = m_evals s /\ m_evecs s' = m_evecs s /\ m_info s' = m_info s.
Proof. cbn. repeat split; reflexivity. Qed.

(** C4. For vectors [d] and [res] with at least [nev] entries,
    [num_converged] stores a mask of length [nev] whose entry [j] tells
    whether [res[j] < tol * max(eps^(2/3), |d[j]|)], and returns the number
    of indices below [nev] that pass this test. *)
Theorem num_converged_threshold `{!ScalarOrder S}
        (tol : S) (d : list (S * S)) (res : list S) (s : Solver) :
  (Z.to_nat (m_nev s) <= length d)%nat ->
  (Z.to_nat (m_nev s) <= length res)%nat ->
  let nev := Z.to_nat (m_nev s) in
  let count := fst (num_converged tol d res s) in
  let mask := m_evals_conv (snd (num_converged tol d res s)) in
  length mask = nev /\
  (forall j, (j < nev)%nat -> nth j mask false = converged_spec tol d res j) /\
  count = Z.of_nat (length (filter (converged_spec tol d res) (seq 0 nev))).
Proof.
  intros Hd Hres nev count mask.
  assert (Hlen : length mask = nev).
  { subst mask. cbn. rewrite length_map, length_combine, length_map, !length_firstn.
    fold nev. lia. }
  assert (Hnth : forall j, (j < nev)%nat -> nth j mask false = converged_spec tol d res j).
  { intros j Hj. subst mask. cbn. fold nev.
    set (f := fun x : S * S => smul tol (smax (cabs x) eps23)).
    set (g := fun p : S * S => sltb (fst p) (snd p)).
    assert (Hl : (j < length (combine (firstn nev res) (map f (firstn nev d))))%nat).
    { rewrite length_combine, length_map, !length_firstn. lia. }
    rewrite (nth_indep _ false (g (szero, f (szero, szero)))) by (rewrite length_map; exact Hl).
    rewrite (map_nth g). rewrite combine_nth
      by (rewrite length_map, !length_firstn; lia).
    rewrite (map_nth f). subst g f. cbn [fst snd].
    rewrite !nth_firstn.
    assert (Hb : (j <? nev)%nat = true) by (apply Nat.ltb_lt; exact Hj).
    rewrite Hb. unfold converged_spec. rewrite (smax_comm eps23). reflexivity. }
  split; [exact Hlen|]. split; [exact Hnth|].
  change count with (Z.of_nat (count_true mask)).
  rewrite count_true_positions, Hlen. do 2 f_equal.
  apply filter_ext_in. intros j Hj. apply in_seq in Hj. apply Hnth. lia.
Qed.

(** *** init *)

(** C10, as amended. [init] zeroes the iteration counter, the eigenvalue
    vector ([ncv] entries), the eigenvector matrix ([ncv] by [nev]) and the
    convergence flags ([nev] entries); it zeroes the operation counter and
    then hands it to the engine's own [init], so afterwards the counter is
    what the engine counted from zero; the status is left as it was. The
    overload without an argument does the same with the generated vector. *)
Theorem init_resets_all_but_status (init_resid : list S) (s : Solver) :
  let effect (s' : Solver) (v0 : list S) :=
    num_iterations s' = 0 /\
    num_operations s' = snd (fac_init v0 (m_fac s) 0) /\
    m_fac s' = fst (fac_init v0 (m_fac s) 0) /\
    m_evals s' = repeat szero (Z.to_nat (m_ncv s)) /\
    m_evecs s' = repeat (repeat szero (Z.to_nat (m_ncv s))) (Z.to_nat (m_nev s)) /\
    m_evals_conv s' = repeat false (Z.to_nat (m_nev s)) /\
    info s' = info s /\
    m_n s' = m_n s /\ m_nev s' = m_nev s /\ m_ncv s' = m_ncv s in
  effect (init init_resid s) (firstn (Z.to_nat (m_n s)) init_resid) /\
  effect (init_random s) (firstn (Z.to_nat (m_n s)) (random_vec 0 (m_n s))).
Proof.
  cbv zeta. unfold init_random, init, num_iterations, num_operations, info.
  cbn [m_n m_fac m_nmatop set_evals set_evecs set_evals_conv set_nmatop set_niter
       m_op_container m_op m_nev m_ncv m_niter m_evals m_evecs m_evals_conv m_info].
  split.
  - destruct (fac_init (firstn (Z.to_nat (m_n s)) init_resid) (m_fac s) 0) as [fac c].
    cbn. repeat split; reflexivity.
  - destruct (fac_init (firstn (Z.to_nat (m_n s)) (random_vec 0 (m_n s))) (m_fac s) 0)
      as [fac c].
    cbn. repeat split; reflexivity.
Qed.

(** *** The conjugate-pair pass *)

Lemma set_nth_length {A : Type} (i : nat) (x : A) (l : list A) :
  length (set_nth i x l) = length l.
Proof.
  revert i. induction l as [|a l IH]; intros [|i]; cbn; try reflexivity.
  now rewrite IH.
Qed.

Lemma set_nth_same {A : Type} (i : nat) (x dflt : A) (l : list A) :
  (i < length l)%nat -> nth i (set_nth i x l) dflt = x.
Proof.
  revert i. induction l as [|a l IH]; intros [|i] Hi; cbn in *; try lia; try reflexivity.
  apply IH. lia.
Qed.

Lemma set_nth_other {A : Type} (i j : nat) (x dflt : A) (l : list A) :
  i <> j -> nth j (set_nth i x l) dflt = nth j l dflt.
Proof.
  revert i j. induction l as [|a l IH]; intros [|i] [|j] Hij; cbn; try reflexivity;
    try lia.
  apply IH. lia.
Qed.

Lemma count_true_set_nth (i : nat) (l : list bool) :
  (i < length l)%nat -> nth i l false = false ->
  count_true (set_nth i true l) = Datatypes.S (count_true l).
Proof.
  unfold count_true.
  revert i. induction l as [|a l IH]; intros [|i] Hi Hf; cbn in *; try lia.
  - subst a. reflexivity.
  - destruct a; cbn; rewrite IH by (assumption || lia); reflexivity.
Qed.

Lemma set_nth_true_mono (i j : nat) (l : list bool) :
  nth j l false = true -> nth j (set_nth i true l) false = true.
Proof.
  intros Hj. destruct (Nat.eq_dec i j) as [->|Hne].
  - destruct (Nat.lt_ge_cases j (length l)) as [Hl|Hl].
    + apply set_nth_same; exact Hl.
    + rewrite nth_overflow in Hj by exact Hl. discriminate.
  - rewrite set_nth_other by exact Hne. exact Hj.
Qed.

(** What one turn does to the mask and to [nev_new]. *)
Lemma pair_step_effect (T : Matrix) (ncv : Z) (select : list bool) (nev_new : Z) (i : nat) :
  length select = Z.to_nat ncv -> (i < Z.to_nat ncv)%nat ->
  let st := pair_step T ncv (select, nev_new) i in
  length (fst st) = length select /\
  (forall j, nth j select false = true -> nth j (fst st) false = true) /\
  snd st - Z.of_nat (count_true (fst st)) = nev_new - Z.of_nat (count_true select) /\
  ((i + 1 < Z.to_nat ncv)%nat -> block_at T i -> nth (i + 1) (fst st) false = true) /\
  ((0 < i)%nat -> block_at T (i - 1) -> nth (i - 1) (fst st) false = true).
Proof.
  intros Hlen Hi. unfold pair_step, block_at.
  (* the entry below *)
  set (c1 := (Z.of_nat i + 1 <? ncv) && negb (seqb (coeff T (i + 1) i) szero)
             && negb (nth (i + 1) select false)).
  set (st1 := if c1 then (set_nth (i + 1) true select, nev_new + 1)
              else (select, nev_new)).
  assert (H1 : length (fst st1) = length select /\
               (forall j, nth j select false = true -> nth j (fst st1) false = true) /\
               snd st1 - Z.of_nat (count_true (fst st1))
               = nev_new - Z.of_nat (count_true select) /\
               ((i + 1 < Z.to_nat ncv)%nat -> seqb (coeff T (i + 1) i) szero = false ->
                nth (i + 1) (fst st1) false = true)).
  { subst st1. destruct c1 eqn:Ec; subst c1; cbn [fst snd].
    - apply andb_prop in Ec as [Ec E3]. apply andb_prop in Ec as [E1 E2].
      apply Z.ltb_lt in E1. apply negb_true_iff in E3.
      assert (Hin : (i + 1 < length select)%nat) by lia.
      split; [apply set_nth_length|]. split; [intros j; apply set_nth_true_mono|].
      split; [rewrite count_true_set_nth by assumption; lia|].
      intros _ _. apply set_nth_same; exact Hin.
    - split; [reflexivity|]. split; [tauto|]. split; [reflexivity|].
      intros Hb Hz.
      assert (E1 : (Z.of_nat i + 1 <? ncv) = true) by (apply Z.ltb_lt; lia).
      rewrite E1, Hz in Ec. cbn [negb andb] in Ec.
      apply negb_false_iff in Ec. exact Ec. }
  destruct st1 as [sel1 n1]. cbn [fst snd] in H1.
  destruct H1 as (L1 & M1 & C1 & B1).
  (* the entry above *)
  set (c2 := (0 <? i)%nat && negb (seqb (coeff T i (i - 1)) szero)
             && negb (nth (i - 1) sel1 false)).
  destruct c2 eqn:Ec; subst c2; cbn [fst snd].
  - apply andb_prop in Ec as [Ec E3]. apply andb_prop in Ec as [E1 E2].
    apply Nat.ltb_lt in E1. apply negb_true_iff in E3.
    assert (Hin : (i - 1 < length sel1)%nat) by lia.
    split; [rewrite set_nth_length; exact L1|].
    split; [intros j Hj; apply set_nth_true_mono, M1, Hj|].
    split; [rewrite count_true_set_nth by assumption; lia|].
    split.
    + intros Hb Hz. apply set_nth_true_mono, B1; assumption.
    + intros _ _. apply set_nth_same; exact Hin.
  - split; [exact L1|]. split; [exact M1|]. split; [exact C1|].
    split; [exact B1|].
    intros Hpos Hz. replace (i - 1 + 1)%nat with i in Hz by lia.
    assert (E1 : (0 <? i)%nat = true) by (apply Nat.ltb_lt; exact Hpos).
    rewrite E1, Hz in Ec. cbn [negb andb] in Ec.
    apply negb_false_iff in Ec. exact Ec.
Qed.

(** The whole pass, over any list of positions below [ncv]. *)
Lemma conjugate_pairs_effect (T : Matrix) (ncv : Z) (ind_sel : list nat) :
  Forall (fun i => (i < Z.to_nat ncv)%nat) ind_sel ->
  forall (select : list bool) (nev_new : Z),
  length select = Z.to_nat ncv ->
  let st := conjugate_pairs T ncv ind_sel (select, nev_new) in
  length (fst st) = length select /\
  (forall j, nth j select false = true -> nth j (fst st) false = true) /\
  snd st - Z.of_nat (count_true (fst st)) = nev_new - Z.of_nat (count_true select) /\
  (forall i, In i ind_sel ->
     ((i + 1 < Z.to_nat ncv)%nat -> block_at T i -> nth (i + 1) (fst st) false = true) /\
     ((0 < i)%nat -> block_at T (i - 1) -> nth (i - 1) (fst st) false = true)).
Proof.
  unfold conjugate_pairs.
  induction 1 as [|i rest Hi Hrest IH]; intros select nev_new Hlen.
  - cbn. repeat split; try tauto; contradiction.
  - cbn [fold_left].
    destruct (pair_step_effect T ncv select nev_new i Hlen Hi) as (L1 & M1 & C1 & B1 & A1).
    destruct (pair_step T ncv (select, nev_new) i) as [sel1 n1] eqn:E1.
    cbn [fst snd] in *.
    specialize (IH sel1 n1 (eq_trans L1 Hlen)).
    cbv zeta in IH. destruct IH as (L2 & M2 & C2 & P2).
    split; [congruence|]. split; [intros j Hj; apply M2, M1, Hj|].
    split; [lia|].
    intros i' [<-|Hin].
    + split; intros Hb Hz; apply M2; [apply B1|apply A1]; assumption.
    + apply P2, Hin.
Qed.

Lemma set_nth_true_inv (p j : nat) (l : list bool) :
  nth j (set_nth p true l) false = true -> j = p \/ nth j l false = true.
Proof.
  intros H. destruct (Nat.eq_dec p j) as [->|Hne]; [left; reflexivity|].
  right. rewrite set_nth_other in H by exact Hne. exact H.
Qed.

(** One turn marks nothing but positions of 2x2 blocks. *)
Lemma pair_step_only_blocks (T : Matrix) (ncv : Z) (select : list bool) (nev_new : Z)
      (i : nat) :
  (i < Z.to_nat ncv)%nat ->
  forall j, nth j (fst (pair_step T ncv (select, nev_new) i)) false = true ->
            nth j select false = true \/ in_block T ncv j = true.
Proof.
  intros Hi j. unfold pair_step.
  destruct ((Z.of_nat i + 1 <? ncv) && negb (seqb (coeff T (i + 1) i) szero)
            && negb (nth (i + 1) select false)) eqn:E1.
  - apply andb_prop in E1 as [E1 _]. apply andb_prop in E1 as [E1a E1b].
    assert (B1 : in_block T ncv (i + 1) = true).
    { unfold in_block. replace (i + 1 - 1)%nat with i by lia. rewrite E1b.
      replace (0 <? i + 1)%nat with true by (symmetry; apply Nat.ltb_lt; lia).
      reflexivity. }
    destruct ((0 <? i)%nat && negb (seqb (coeff T i (i - 1)) szero)
              && negb (nth (i - 1) (set_nth (i + 1) true select) false)) eqn:E2;
      cbn [fst]; intros H.
    + apply andb_prop in E2 as [E2 _]. apply andb_prop in E2 as [E2a E2b].
      apply Nat.ltb_lt in E2a.
      apply set_nth_true_inv in H as [->|H].
      * right. unfold in_block. replace (i - 1 + 1)%nat with i by lia. rewrite E2b.
        replace (Z.of_nat (i - 1) + 1 <? ncv) with true
          by (symmetry; apply Z.ltb_lt; lia).
        apply orb_true_r.
      * apply set_nth_true_inv in H as [->|H]; [right; exact B1|left; exact H].
    + apply set_nth_true_inv in H as [->|H]; [right; exact B1|left; exact H].
  - destruct ((0 <? i)%nat && negb (seqb (coeff T i (i - 1)) szero)
              && negb (nth (i - 1) select false)) eqn:E2;
      cbn [fst]; intros H; [|left; exact H].
    apply andb_prop in E2 as [E2 _]. apply andb_prop in E2 as [E2a E2b].
    apply Nat.ltb_lt in E2a.
    apply set_nth_true_inv in H as [->|H]; [|left; exact H].
    right. unfold in_block. replace (i - 1 + 1)%nat with i by lia. rewrite E2b.
    replace (Z.of_nat (i - 1) + 1 <? ncv) with true
      by (symmetry; apply Z.ltb_lt; lia).
    apply orb_true_r.
Qed.

(** The whole pass marks nothing but positions of 2x2 blocks. *)
Lemma conjugate_pairs_only_blocks (T : Matrix) (ncv : Z) (ind_sel : list nat) :
  Forall (fun i => (i < Z.to_nat ncv)%nat) ind_sel ->
  forall (select : list bool) (nev_new : Z) (j : nat),
  nth j (fst (conjugate_pairs T ncv ind_sel (select, nev_new))) false = true ->
  nth j select false = true \/ in_block T ncv j = true.
Proof.
  unfold conjugate_pairs.
  induction 1 as [|i rest Hi Hrest IH]; intros select nev_new j H.
  - left. exact H.
  - cbn [fold_left] in H.
    pose proof (pair_step_only_blocks T ncv select nev_new i Hi j) as B.
    destruct (pair_step T ncv (select, nev_new) i) as [sel1 n1].
    cbn [fst] in B.
    destruct (IH sel1 n1 j H) as [H1|H1]; [exact (B H1)|right; exact H1].
Qed.

(** C7, as amended. In a restart iteration the pass runs over the sort
    permutation of the positions [0 .. ncv-1] with a mask of [ncv] entries,
    and it takes its turn for every position, kept or not. Afterwards a
    position is kept exactly when it was kept before or belongs to a 2x2
    block of [T] (a nonzero sub-diagonal entry beside or below it); so the
    mask only grows, the partner of every kept position of a block is
    kept, both positions of every block are kept and no block is split;
    and [nev_new] has grown by one for each position the pass has marked. *)
Theorem conjugate_pairs_keeps_all_blocks (T : Matrix) (ncv : Z) (ind_sel : list nat)
        (select : list bool) (nev_new : Z) :
  length select = Z.to_nat ncv ->
  Permutation ind_sel (seq 0 (Z.to_nat ncv)) ->
  let select' := fst (conjugate_pairs T ncv ind_sel (select, nev_new)) in
  let nev_new' := snd (conjugate_pairs T ncv ind_sel (select, nev_new)) in
  length select' = Z.to_nat ncv /\
  (forall j, (j < Z.to_nat ncv)%nat ->
     nth j select' false = nth j select false || in_block T ncv j) /\
  (forall i, nth i select false = true -> nth i select' false = true) /\
  (forall i, nth i select false = true ->
     ((i + 1 < Z.to_nat ncv)%nat -> block_at T i -> nth (i + 1) select' false = true) /\
     ((0 < i)%nat -> block_at T (i - 1) -> nth (i - 1) select' false = true)) /\
  nev_new' = nev_new + (Z.of_nat (count_true select') - Z.of_nat (count_true select)) /\
  (forall k, (k + 1 < Z.to_nat ncv)%nat -> block_at T k ->
     nth k select' false = true /\ nth (k + 1) select' false = true).
Proof.
  intros Hlen Hperm select' nev_new'.
  assert (Hall : Forall (fun i => (i < Z.to_nat ncv)%nat) ind_sel).
  { apply Forall_forall. intros i Hi.
    apply (Permutation_in _ Hperm) in Hi. apply in_seq in Hi. lia. }
  assert (Hcov : forall i, (i < Z.to_nat ncv)%nat -> In i ind_sel).
  { intros i Hi. apply (Permutation_in _ (Permutation_sym Hperm)).
    apply in_seq. lia. }
  destruct (conjugate_pairs_effect T ncv ind_sel Hall select nev_new Hlen)
    as (L & M & C & P).
  fold select' in L, M, C, P. fold nev_new' in C.
  assert (Hblock : forall k, (k + 1 < Z.to_nat ncv)%nat -> block_at T k ->
             nth k select' false = true /\ nth (k + 1) select' false = true).
  { intros k Hk Hb.
    destruct (P k (Hcov k ltac:(lia))) as [Hdown _].
    destruct (P (k + 1)%nat (Hcov (k + 1)%nat Hk)) as [_ Hup].
    replace (k + 1 - 1)%nat with k in Hup by lia.
    split; [exact (Hup ltac:(lia) Hb)|exact (Hdown Hk Hb)]. }
  split; [congruence|]. split.
  - intros j Hj.
    destruct (nth j select' false) eqn:Ej.
    + symmetry. apply orb_true_iff.
      exact (conjugate_pairs_only_blocks T ncv ind_sel Hall select nev_new j Ej).
    + symmetry. apply orb_false_iff. split.
      * destruct (nth j select false) eqn:E0; [|reflexivity].
        rewrite (M j E0) in Ej. discriminate.
      * destruct (in_block T ncv j) eqn:Eb; [|reflexivity]. exfalso.
        unfold in_block in Eb. apply orb_true_iff in Eb as [Eb|Eb];
          apply andb_prop in Eb as [Ea Ez]; apply negb_true_iff in Ez.
        -- apply Nat.ltb_lt in Ea.
           destruct (Hblock (j - 1)%nat ltac:(lia)) as [_ Hk].
           { unfold block_at. replace (j - 1 + 1)%nat with j by lia. exact Ez. }
           replace (j - 1 + 1)%nat with j in Hk by lia. congruence.
        -- apply Z.ltb_lt in Ea.
           destruct (Hblock j ltac:(lia) Ez) as [Hk _]. congruence.
  - split; [exact M|]. split.
    + intros i Hi. apply P, Hcov.
      destruct (Nat.lt_ge_cases i (length select)) as [Hl|Hl]; [lia|].
      rewrite nth_overflow in Hi by exact Hl. discriminate.
    + split; [lia|exact Hblock].
Qed.

(** *** Schur reordering: the permutation and the transpositions *)

Lemma swap_at_map {A B : Type} (f : A -> B) (k : nat) (l : list A) :
  map f (swap_at k l) = swap_at k (map f l).
Proof.
  revert k. induction l as [|a l IH]; intros [|k]; cbn; try reflexivity.
  - destruct l; reflexivity.
  - now rewrite IH.
Qed.

Lemma swap_at_perm {A : Type} (k : nat) (l : list A) : Permutation (swap_at k l) l.
Proof.
  revert k. induction l as [|a l IH]; intros [|k]; cbn; try reflexivity.
  - destruct l; [reflexivity|apply perm_swap].
  - apply perm_skip, IH.
Qed.

Lemma swap_at_app {A : Type} (pre l : list A) (k : nat) :
  swap_at (length pre + k) (pre ++ l) = pre ++ swap_at k l.
Proof. induction pre as [|a pre IH]; cbn; [reflexivity|now rewrite IH]. Qed.

Lemma apply_swaps_cons {A : Type} (k : nat) (ks : list nat) (l : list A) :
  apply_swaps (k :: ks) l = apply_swaps ks (swap_at k l).
Proof. reflexivity. Qed.

Lemma apply_swaps_app {A : Type} (ks1 ks2 : list nat) (l : list A) :
  apply_swaps (ks1 ++ ks2) l = apply_swaps ks2 (apply_swaps ks1 l).
Proof. unfold apply_swaps. apply fold_left_app. Qed.

Lemma apply_swaps_map {A B : Type} (f : A -> B) (ks : list nat) (l : list A) :
  map f (apply_swaps ks l) = apply_swaps ks (map f l).
Proof.
  unfold apply_swaps.
  revert l. induction ks as [|k ks IH]; intros l; [reflexivity|].
  cbn [fold_left]. rewrite IH, swap_at_map. reflexivity.
Qed.

Lemma apply_swaps_perm {A : Type} (ks : list nat) (l : list A) :
  Permutation (apply_swaps ks l) l.
Proof.
  unfold apply_swaps.
  revert l. induction ks as [|k ks IH]; intros l; [reflexivity|].
  cbn [fold_left]. etransitivity; [apply IH|apply swap_at_perm].
Qed.

(** The innermost loop carries the entry at position [j] down to position
    [i] and shifts the entries in between up by one. *)
Lemma bubble_down {A : Type} (pre mid : list A) (x : A) (post : list A) :
  apply_swaps (down_range (length pre) (length pre + length mid))
              (pre ++ mid ++ x :: post)
  = pre ++ x :: mid ++ post.
Proof.
  unfold down_range. replace (length pre + length mid - length pre)%nat
    with (length mid) by lia.
  revert post. induction mid as [|y mid IH] using rev_ind; intros post; [reflexivity|].
  rewrite length_app. cbn [length]. rewrite seq_app, rev_app_distr. cbn [seq rev app].
  rewrite apply_swaps_cons.
  rewrite <- !app_assoc. cbn [app].
  replace (pre ++ mid ++ y :: x :: post) with ((pre ++ mid) ++ y :: x :: post)
    by (rewrite <- app_assoc; reflexivity).
  replace (length pre + length mid)%nat with (length (pre ++ mid) + 0)%nat
    by (rewrite length_app; lia).
  rewrite swap_at_app. cbn [swap_at]. rewrite <- app_assoc. apply IH.
Qed.

Lemma find_from_split (i j : nat) (tail : list nat) :
  In i tail ->
  exists mid post, tail = mid ++ i :: post /\ find_from i j tail = (j + length mid)%nat.
Proof.
  revert j. induction tail as [|p tail IH]; intros j Hin; [contradiction|].
  cbn [find_from]. destruct (Nat.eqb_spec p i) as [->|Hne].
  - exists [], tail. split; [reflexivity|cbn; lia].
  - destruct Hin as [Heq|Hin]; [contradiction|].
    destruct (IH (Datatypes.S j) Hin) as (mid & post & -> & Hf).
    exists (p :: mid), post. split; [reflexivity|]. rewrite Hf. cbn. lia.
Qed.

(** One turn of the outer loop puts [i] at position [i]. *)
Lemma outer_turn (n i : nat) (rest : list nat) :
  (i < n)%nat -> Permutation (seq 0 i ++ rest) (seq 0 n) ->
  exists rest',
    apply_swaps (down_range i (find_target i (seq 0 i ++ rest))) (seq 0 i ++ rest)
    = seq 0 (Datatypes.S i) ++ rest'.
Proof.
  intros Hi Hperm.
  assert (Hin : In i rest).
  { assert (H : In i (seq 0 i ++ rest)).
    { apply (Permutation_in _ (Permutation_sym Hperm)), in_seq. lia. }
    apply in_app_or in H as [H|H]; [apply in_seq in H; lia|exact H]. }
  unfold find_target.
  replace (skipn i (seq 0 i ++ rest)) with rest.
  2:{ rewrite skipn_app, length_seq, Nat.sub_diag, skipn_all2 by (rewrite length_seq; lia).
      reflexivity. }
  destruct (find_from_split i i rest Hin) as (mid & post & -> & ->).
  exists (mid ++ post).
  pose proof (bubble_down (seq 0 i) mid i post) as B.
  rewrite length_seq in B. rewrite B, seq_S. cbn [Nat.add].
  rewrite <- app_assoc. reflexivity.
Qed.

Lemma swaps_inner (ks : list nat) (P tr : list nat) :
  fold_left (fun st k => (swap_at k (fst st), snd st ++ [k])) ks (P, tr)
  = (apply_swaps ks P, tr ++ ks).
Proof.
  revert P tr. induction ks as [|k ks IH]; intros P tr; cbn.
  - now rewrite app_nil_r.
  - rewrite IH. cbn. rewrite <- app_assoc. reflexivity.
Qed.

(** The outer loop over [0 .. m-1]: the vector starts with [0 .. m-1], and
    the positions recorded are the transpositions that were applied. *)
Lemma swaps_outer_prefix (n m : nat) (P : list nat) :
  (m <= n)%nat -> Permutation P (seq 0 n) ->
  exists rest ks,
    fold_left swaps_outer (seq 0 m) (P, []) = (seq 0 m ++ rest, ks) /\
    seq 0 m ++ rest = apply_swaps ks P.
Proof.
  intros Hm Hperm. induction m as [|m IH].
  - exists P, []. split; reflexivity.
  - destruct IH as (rest & ks & E & EP); [lia|].
    assert (Hp : Permutation (seq 0 m ++ rest) (seq 0 n)).
    { rewrite EP. etransitivity; [apply apply_swaps_perm|exact Hperm]. }
    destruct (outer_turn n m rest ltac:(lia) Hp) as (rest' & Ht).
    exists rest', (ks ++ down_range m (find_target m (seq 0 m ++ rest))).
    rewrite seq_S, fold_left_app, E. cbn [fold_left Nat.add].
    unfold swaps_outer at 1. cbn [fst snd]. rewrite swaps_inner.
    rewrite Ht, <- seq_S. split; [reflexivity|].
    rewrite apply_swaps_app, <- EP, Ht. reflexivity.
Qed.

Lemma sorted_prefix_all (n : nat) (rest : list nat) :
  Permutation (seq 0 (n - 1) ++ rest) (seq 0 n) -> seq 0 (n - 1) ++ rest = seq 0 n.
Proof.
  intros Hperm. destruct n as [|n].
  - cbn in *. apply Permutation_sym, Permutation_nil in Hperm. exact Hperm.
  - replace (Datatypes.S n - 1)%nat with n in * by lia.
    rewrite seq_S in Hperm |- *. cbn [Nat.add] in *.
    apply Permutation_app_inv_l in Hperm.
    apply Permutation_sym, Permutation_length_1_inv in Hperm. now rewrite Hperm.
Qed.

Lemma rotate_at_split (k : nat) (UT : Matrix * Matrix) (P : list nat) :
  rotate_at k (UT, P) = (givens_at UT k, swap_at k P).
Proof. destruct UT as [U T]. reflexivity. Qed.

Lemma rotations_inner (ks : list nat) (UT : Matrix * Matrix) (P : list nat) :
  fold_left (fun st k => rotate_at k st) ks (UT, P)
  = (fold_left givens_at ks UT, apply_swaps ks P).
Proof.
  revert UT P. induction ks as [|k ks IH]; intros UT P; [reflexivity|].
  cbn [fold_left]. rewrite rotate_at_split, IH. reflexivity.
Qed.

(** The matrices see exactly the rotations at the recorded positions. *)
Lemma ordschur_outer_trace (turns : list nat) :
  forall (UT : Matrix * Matrix) (P tr : list nat),
  exists ks,
    snd (fold_left swaps_outer turns (P, tr)) = tr ++ ks /\
    fold_left ordschur_outer turns (UT, P)
    = (fold_left givens_at ks UT, fst (fold_left swaps_outer turns (P, tr))).
Proof.
  induction turns as [|i turns IH]; intros UT P tr.
  - exists []. cbn. now rewrite app_nil_r.
  - cbn [fold_left]. unfold swaps_outer at 2 4, ordschur_outer at 2. cbn [fst snd].
    rewrite swaps_inner, rotations_inner.
    set (kk := down_range i (find_target i P)).
    destruct (IH (fold_left givens_at kk UT) (apply_swaps kk P) (tr ++ kk))
      as (ks & E1 & E2).
    exists (kk ++ ks). rewrite E1, E2, app_assoc, fold_left_app. split; reflexivity.
Qed.

Lemma rank_S (want : bool) (select : list bool) (m : nat) :
  rank want select (Datatypes.S m)
  = (rank want select m + if Bool.eqb (nth m select false) want then 1 else 0)%nat.
Proof.
  unfold rank. rewrite seq_S, filter_app, length_app. cbn [Nat.add filter].
  destruct (Bool.eqb (nth m select false) want); reflexivity.
Qed.

(** A filling pass over the first [m] positions. *)
Lemma fill_pass_prefix (want : bool) (select : list bool) (m : nat) :
  (m <= length select)%nat ->
  forall (perm : list nat) (ind : nat),
  length perm = length select ->
  let st := fold_left (fill_step want select) (seq 0 m) (perm, ind) in
  snd st = (ind + rank want select m)%nat /\
  length (fst st) = length perm /\
  forall j, nth j (fst st) O =
            if (j <? m)%nat && Bool.eqb (nth j select false) want
            then (ind + rank want select j)%nat else nth j perm O.
Proof.
  intros Hm perm ind Hlen. induction m as [|m IH].
  - cbn. split; [unfold rank; cbn; lia|]. split; [reflexivity|]. intros j. reflexivity.
  - destruct IH as (I1 & I2 & I3); [lia|].
    cbv zeta. rewrite seq_S, fold_left_app. cbn [Nat.add fold_left].
    destruct (fold_left (fill_step want select) (seq 0 m) (perm, ind)) as [p c] eqn:E.
    cbn [fst snd] in *. subst c. unfold fill_step. rewrite rank_S.
    destruct (Bool.eqb (nth m select false) want) eqn:Ew; cbn [fst snd].
    + split; [lia|]. split; [rewrite set_nth_length; exact I2|].
      intros j. destruct (Nat.eq_dec m j) as [<-|Hne].
      * rewrite set_nth_same by lia.
        rewrite Ew. replace (m <? Datatypes.S m)%nat with true
          by (symmetry; apply Nat.ltb_lt; lia). reflexivity.
      * rewrite set_nth_other by exact Hne. rewrite I3.
        replace (j <? Datatypes.S m)%nat with (j <? m)%nat; [reflexivity|].
        destruct (Nat.ltb_spec j m), (Nat.ltb_spec j (Datatypes.S m)); lia || reflexivity.
    + split; [lia|]. split; [exact I2|].
      intros j. rewrite I3. destruct (Nat.eq_dec m j) as [<-|Hne].
      * rewrite Ew, !andb_false_r. reflexivity.
      * replace (j <? Datatypes.S m)%nat with (j <? m)%nat; [reflexivity|].
        destruct (Nat.ltb_spec j m), (Nat.ltb_spec j (Datatypes.S m)); lia || reflexivity.
Qed.

(** The vector [ordschur] builds holds the target of every position. *)
Lemma build_permutation_target (select : list bool) :
  build_permutation select = map (target select) (seq 0 (length select)).
Proof.
  unfold build_permutation, fill_pass.
  set (n := length select).
  destruct (fill_pass_prefix true select n (le_n _) (repeat O n) O (repeat_length _ _))
    as (A1 & A2 & A3).
  destruct (fold_left (fill_step true select) (seq 0 n) (repeat O n, O)) as [p1 c1] eqn:E1.
  cbn [fst snd] in *. rewrite repeat_length in A2.
  destruct (fill_pass_prefix false select n (le_n _) p1 c1 A2) as (B1 & B2 & B3).
  destruct (fold_left (fill_step false select) (seq 0 n) (p1, c1)) as [p2 c2] eqn:E2.
  cbn [fst snd] in *.
  apply (nth_ext _ _ O (target select O)).
  - rewrite length_map, length_seq. congruence.
  - intros j Hj. rewrite B2, A2 in Hj.
    rewrite (map_nth (target select)), seq_nth by exact Hj. cbn [Nat.add].
    rewrite B3, A3. unfold target. fold n.
    replace (j <? n)%nat with true by (symmetry; apply Nat.ltb_lt; exact Hj).
    subst c1. destruct (nth j select false); cbn; reflexivity.
Qed.

Lemma rank_of_filter (want : bool) (select : list bool) (m : nat) :
  map (rank want select)
      (filter (fun i => Bool.eqb (nth i select false) want) (seq 0 m))
  = seq 0 (rank want select m).
Proof.
  induction m as [|m IH]; [reflexivity|].
  rewrite rank_S, seq_S, filter_app, map_app, IH. cbn [Nat.add filter].
  destruct (Bool.eqb (nth m select false) want); cbn [map].
  - rewrite seq_app. reflexivity.
  - rewrite Nat.add_0_r, app_nil_r. reflexivity.
Qed.

Lemma kept_as_filter (select : list bool) :
  kept select
  = filter (fun i => Bool.eqb (nth i select false) true) (seq 0 (length select)).
Proof.
  unfold kept. apply filter_ext. intros j. destruct (nth j select false); reflexivity.
Qed.

Lemma discarded_as_filter (select : list bool) :
  discarded select
  = filter (fun i => Bool.eqb (nth i select false) false) (seq 0 (length select)).
Proof.
  unfold discarded. apply filter_ext. intros j. destruct (nth j select false); reflexivity.
Qed.

Lemma target_on_kept (select : list bool) :
  map (target select) (kept select) = seq 0 (length (kept select)).
Proof.
  assert (E : map (target select) (kept select) = map (rank true select) (kept select)).
  { apply map_ext_in. intros j Hj. unfold kept in Hj. apply filter_In in Hj as [_ Hj].
    unfold target. rewrite Hj. reflexivity. }
  rewrite E, kept_as_filter, rank_of_filter. reflexivity.
Qed.

Lemma target_on_discarded (select : list bool) :
  map (target select) (discarded select)
  = seq (length (kept select)) (length (discarded select)).
Proof.
  assert (E : map (target select) (discarded select)
              = map (fun r => (length (kept select) + r)%nat)
                    (map (rank false select) (discarded select))).
  { rewrite map_map. apply map_ext_in. intros j Hj. unfold discarded in Hj.
    apply filter_In in Hj as [_ Hj]. apply negb_true_iff in Hj.
    unfold target. rewrite Hj, kept_as_filter. reflexivity. }
  rewrite E, discarded_as_filter, rank_of_filter.
  fold (rank false select (length select)).
  generalize (rank false select (length select)) as m.
  generalize (length (kept select)) as k. clear.
  intros k m. induction m as [|m IH]; [reflexivity|].
  rewrite !seq_S, map_app, IH. reflexivity.
Qed.

Lemma filter_split_perm {A : Type} (p : A -> bool) (l : list A) :
  Permutation (filter p l ++ filter (fun x => negb (p x)) l) l.
Proof.
  induction l as [|a l IH]; [reflexivity|].
  cbn [filter]. destruct (p a); cbn [negb app].
  - apply perm_skip, IH.
  - etransitivity; [apply Permutation_sym, Permutation_middle|apply perm_skip, IH].
Qed.

Lemma kept_discarded_perm (select : list bool) :
  Permutation (kept select ++ discarded select) (seq 0 (length select)).
Proof. apply filter_split_perm. Qed.

Lemma target_on_partition (select : list bool) :
  map (target select) (kept select ++ discarded select) = seq 0 (length select).
Proof.
  rewrite map_app, target_on_kept, target_on_discarded, <- seq_app.
  rewrite <- length_app, (Permutation_length (kept_discarded_perm select)), length_seq.
  reflexivity.
Qed.

Lemma NoDup_map_inj_on {A B : Type} (f : A -> B) (l : list A) :
  NoDup (map f l) -> forall x y, In x l -> In y l -> f x = f y -> x = y.
Proof.
  induction l as [|a l IH]; intros Hnd x y Hx Hy Hf; [contradiction|].
  cbn in Hnd. apply NoDup_cons_iff in Hnd as [Hna Hnd].
  destruct Hx as [<-|Hx], Hy as [<-|Hy]; try reflexivity.
  - exfalso. apply Hna. rewrite Hf. apply in_map, Hy.
  - exfalso. apply Hna. rewrite <- Hf. apply in_map, Hx.
  - apply IH; assumption.
Qed.

Lemma map_eq_inj_on {A B : Type} (f : A -> B) (l1 l2 : list A) :
  map f l1 = map f l2 ->
  (forall x y, In x l1 -> In y l2 -> f x = f y -> x = y) ->
  l1 = l2.
Proof.
  revert l2. induction l1 as [|a l1 IH]; intros [|b l2] E Hinj; try discriminate;
    [reflexivity|].
  cbn in E. injection E as E1 E2. f_equal.
  - apply Hinj; [left; reflexivity|left; reflexivity|exact E1].
  - apply IH; [exact E2|]. intros x y Hx Hy. apply Hinj; right; assumption.
Qed.


(** *** The loop of compute *)

Lemma which_eigenvalues_unsupported (evals : list (S * S)) (rule : SortRule) (s : Solver) :
  supported rule = false -> which_eigenvalues evals rule s = inl invalid_argument.
Proof. destruct rule; cbn; intros H; try discriminate; reflexivity. Qed.

Lemma which_eigenvalues_supported (evals : list (S * S)) (rule : SortRule) (s : Solver) :
  supported rule = true ->
  which_eigenvalues evals rule s = inr (SortEigenvalue rule evals (m_ncv s)).
Proof. destruct rule; cbn; intros H; try discriminate; reflexivity. Qed.

(** A turn in which the engine reports that it cannot extend the basis. *)
Lemma compute_body_breakdown (selection : SortRule) (maxit : Z) (tol : S)
      (i : Z) (l : Locals) (s : Solver) (fac : Fac) (count : Z) :
  factorize_from (sizeV l) (m_ncv s) (m_fac s) (m_nmatop s) = (true, fac, count) ->
  compute_body selection maxit tol i l s
  = Return 0 (set_evecs [] (set_evals [] (set_nmatop count (set_fac fac s)))).
Proof. intros E. unfold compute_body. rewrite E. reflexivity. Qed.

(** A turn that reaches the end of the body touches the factorization,
    the operation counter and the convergence flags only. *)
Lemma compute_body_next_frame (selection : SortRule) (maxit : Z) (tol : S)
      (i : Z) (l l' : Locals) (s s' : Solver) :
  compute_body selection maxit tol i l s = Next l' s' ->
  m_info s' = m_info s /\ m_niter s' = m_niter s /\
  m_evals s' = m_evals s /\ m_evecs s' = m_evecs s /\
  m_n s' = m_n s /\ m_nev s' = m_nev s /\ m_ncv s' = m_ncv s.
Proof.
  unfold compute_body.
  destruct (factorize_from _ _ _ _) as [[stop fac] count].
  destruct stop; [discriminate|].
  destruct (RealSchur _) as [X T].
  destruct (EigenSolver T) as [ev evec].
  destruct (which_eigenvalues ev selection _) as [e|ind1]; [discriminate|].
  cbn [num_converged].
  match goal with |- context [if ?c then _ else _] => destruct c end; [discriminate|].
  destruct (which_eigenvalues _ selection _) as [e|ind2]; [discriminate|].
  destruct (conjugate_pairs _ _ _ _) as [sel nn].
  destruct (ordschur _ _ _) as [X' T'].
  intros E. injection E as _ <-. cbn. repeat split; reflexivity.
Qed.

Lemma compute_loop_breakdown (selection : SortRule) (maxit : Z) (tol : S)
      (c1 c2 : Z * Locals * Solver) :
  reaches selection maxit tol c1 c2 ->
  forall i0 l0 s0 i l s, c1 = (i0, l0, s0) -> c2 = (i, l, s) ->
  i < maxit ->
  fst (fst (factorize_from (sizeV l) (m_ncv s) (m_fac s) (m_nmatop s))) = true ->
  exists s',
    compute_loop selection maxit tol (Z.to_nat (maxit - i0)) i0 l0 s0 = Returned 0 s' /\
    m_evals s' = [] /\ m_evecs s' = [] /\
    m_info s' = m_info s0 /\ m_niter s' = m_niter s0 /\
    m_fac s' = snd (fst (factorize_from (sizeV l) (m_ncv s) (m_fac s) (m_nmatop s))) /\
    m_nmatop s' = snd (factorize_from (sizeV l) (m_ncv s) (m_fac s) (m_nmatop s)).
Proof.
  induction 1 as [c|j lj sj l' s' c Hj Hbody Hreach IH];
    intros i0 l0 s0 i l s E1 E2 Hi Hstop.
  - subst c. injection E2 as -> -> ->.
    destruct (factorize_from (sizeV l) (m_ncv s) (m_fac s) (m_nmatop s))
      as [[stop fac] count] eqn:Ef.
    cbn [fst snd] in Hstop. subst stop.
    replace (Z.to_nat (maxit - i)) with (Datatypes.S (Z.to_nat (maxit - (i + 1)))) by lia.
    cbn [compute_loop]. rewrite (compute_body_breakdown _ _ _ _ _ _ _ _ Ef).
    eexists. split; [reflexivity|]. cbn. repeat split; reflexivity.
  - injection E1 as -> -> ->.
    replace (Z.to_nat (maxit - i0)) with (Datatypes.S (Z.to_nat (maxit - (i0 + 1)))) by lia.
    cbn [compute_loop]. rewrite Hbody.
    destruct (compute_body_next_frame _ _ _ _ _ _ _ _ Hbody) as (F1 & F2 & _).
    destruct (IH (i0 + 1) l' s' i l s eq_refl E2 Hi Hstop)
      as (sf & R & P1 & P2 & P3 & P4 & P5 & P6).
    exists sf. rewrite R. repeat split; try assumption; congruence.
Qed.

(** C2, as amended. When the engine reports in some turn of the loop that
    it cannot extend the basis, [compute] returns 0 from that turn, throws
    nothing, leaves the eigenvalue vector and the eigenvector matrix empty,
    and leaves the status and the iteration counter as they were when the
    call began; the factorization and the operation counter are as the
    engine left them. *)
Theorem compute_breakdown_stops (selection sorting : SortRule) (maxit : Z) (tol : S)
        (s : Solver) (i : Z) (l : Locals) (s1 : Solver) :
  reaches selection maxit tol (0, initial_locals s, s) (i, l, s1) ->
  i < maxit ->
  fst (fst (factorize_from (sizeV l) (m_ncv s1) (m_fac s1) (m_nmatop s1))) = true ->
  exists s',
    compute selection maxit tol sorting s = (inr 0, s') /\
    eigenvalues s' = [] /\ m_evecs s' = [] /\
    info s' = info s /\ num_iterations s' = num_iterations s /\
    m_fac s' = snd (fst (factorize_from (sizeV l) (m_ncv s1) (m_fac s1) (m_nmatop s1))) /\
    num_operations s' = snd (factorize_from (sizeV l) (m_ncv s1) (m_fac s1) (m_nmatop s1)).
Proof.
  intros Hreach Hi Hstop.
  destruct (compute_loop_breakdown _ _ _ _ _ Hreach _ _ _ _ _ _ eq_refl eq_refl Hi Hstop)
    as (s' & R & P).
  exists s'. unfold compute. rewrite Z.sub_0_r in R. rewrite R.
  split; [reflexivity|exact P].
Qed.

(** C3, as amended. With a rule that [which_eigenvalues] has no case for,
    a cap of at least one turn and an engine that extends the basis in the
    first turn, [compute] throws [std::invalid_argument] in that turn; the
    factorization and the operation counter are then as the engine's
    extension left them, and the iteration counter, the eigenvalue vector,
    the eigenvector matrix, the convergence flags and the status are as
    they were. *)
Theorem compute_unsupported_rule_throws (selection sorting : SortRule) (maxit : Z)
        (tol : S) (s : Solver) :
  supported selection = false ->
  1 <= maxit ->
  fst (fst (factorize_from 0 (m_ncv s) (m_fac s) (m_nmatop s))) = false ->
  exists s',
    compute selection maxit tol sorting s = (inl invalid_argument, s') /\
    m_fac s' = snd (fst (factorize_from 0 (m_ncv s) (m_fac s) (m_nmatop s))) /\
    num_operations s' = snd (factorize_from 0 (m_ncv s) (m_fac s) (m_nmatop s)) /\
    num_iterations s' = num_iterations s /\
    m_evals s' = m_evals s /\ m_evecs s' = m_evecs s /\
    m_evals_conv s' = m_evals_conv s /\ info s' = info s.
Proof.
  intros Hrule Hmax Hgo. unfold compute.
  replace (Z.to_nat maxit) with (Datatypes.S (Z.to_nat (maxit - 1))) by lia.
  cbn [compute_loop]. unfold compute_body. cbn [initial_locals sizeV].
  destruct (factorize_from 0 (m_ncv s) (m_fac s) (m_nmatop s)) as [[stop fac] count].
  cbn [fst snd] in Hgo |- *. subst stop.
  destruct (RealSchur _) as [X T].
  destruct (EigenSolver T) as [ev evec].
  rewrite which_eigenvalues_unsupported by exact Hrule.
  eexists. split; [reflexivity|]. cbn. repeat split; reflexivity.
Qed.

(** Inside the loop [i < maxit], so the test [i == maxit] never holds: a
    turn breaks out of the loop only when enough values have converged, and
    the last turn the cap allows restarts like any other. *)
Lemma compute_body_break_converged (selection : SortRule) (maxit : Z) (tol : S)
      (i : Z) (l l' : Locals) (s s' : Solver) :
  i < maxit ->
  compute_body selection maxit tol i l s = Break l' s' ->
  m_nev s' <= nconv l'.
Proof.
  intros Hi. unfold compute_body.
  destruct (factorize_from _ _ _ _) as [[stop fac] count].
  destruct stop; [discriminate|].
  destruct (RealSchur _) as [X T].
  destruct (EigenSolver T) as [ev evec].
  destruct (which_eigenvalues ev selection _) as [e|ind1]; [discriminate|].
  cbn [num_converged].
  match goal with |- context [if ?c then _ else _] => destruct c eqn:Ec end.
  - intros E. injection E as <- <-. cbn [nconv m_nev set_evals_conv].
    apply orb_prop in Ec as [Ec|Ec].
    + apply Z.geb_le in Ec. exact Ec.
    + apply Z.eqb_eq in Ec. lia.
  - destruct (which_eigenvalues _ selection _) as [e|ind2]; [discriminate|].
    destruct (conjugate_pairs _ _ _ _) as [sel nn].
    destruct (ordschur _ _ _) as [X' T']. discriminate.
Qed.

(** What the accessor for the eigenvectors hands out. *)
Lemma eigenvectors_are_basis_columns (s : Solver) :
  eigenvectors s
  = leftCols (Z.to_nat (Z.min (m_nev s) (Z.of_nat (count_true (m_evals_conv s)))))
             (matrix_V (m_fac s)).
Proof. reflexivity. Qed.

(** ** Further properties *)

(** *** How a turn of the loop and the whole call can end *)

Lemma which_eigenvalues_result (evals : list (S * S)) (rule : SortRule) (s : Solver) :
  which_eigenvalues evals rule s
  = if supported rule then inr (SortEigenvalue rule evals (m_ncv s))
    else inl invalid_argument.
Proof. destruct rule; reflexivity. Qed.

(** Every way a turn can end, with what it has done to the solver. *)
Lemma compute_body_effect (selection : SortRule) (maxit : Z) (tol : S)
      (i : Z) (l : Locals) (s : Solver) :
  i < maxit ->
  match compute_body selection maxit tol i l s with
  | Next l' s' =>
      same_members s s' /\ m_info s' = m_info s /\ m_niter s' = m_niter s /\
      m_evals s' = m_evals s /\ m_evecs s' = m_evecs s /\
      nconv l' < m_nev s' /\ nconv l' = Z.of_nat (count_true (m_evals_conv s')) /\
      sizeV l' = nev_new l' /\ supported selection = true
  | Break l' s' =>
      same_members s s' /\ m_info s' = m_info s /\ m_niter s' = m_niter s /\
      m_evals s' = m_evals s /\ m_evecs s' = m_evecs s /\
      m_nev s' <= nconv l' /\ nconv l' = Z.of_nat (count_true (m_evals_conv s')) /\
      supported selection = true
  | Return r s' =>
      r = 0 /\ same_members s s' /\ m_info s' = m_info s /\ m_niter s' = m_niter s /\
      m_evals s' = [] /\ m_evecs s' = [] /\ m_evals_conv s' = m_evals_conv s
  | Throw e s' =>
      same_members s s' /\ m_info s' = m_info s /\ m_niter s' = m_niter s /\
      m_evals s' = m_evals s /\ m_evecs s' = m_evecs s /\
      m_evals_conv s' = m_evals_conv s /\ supported selection = false
  end.
Proof.
  intros Hi. unfold compute_body.
  destruct (factorize_from _ _ _ _) as [[stop fac] count].
  destruct stop.
  { unfold same_members. cbn. repeat split; reflexivity. }
  destruct (RealSchur _) as [X T].
  destruct (EigenSolver T) as [ev evec].
  rewrite which_eigenvalues_result.
  destruct (supported selection) eqn:Hs.
  2:{ unfold same_members. cbn. repeat split; reflexivity. }
  cbn [num_converged].
  match goal with |- context [if ?c then _ else _] => destruct c eqn:Ec end.
  - unfold same_members. cbn [nconv m_nev m_info m_niter m_evals m_evecs m_evals_conv
      m_n m_ncv m_op m_op_container set_evals_conv set_nmatop set_fac].
    repeat split; try reflexivity.
    apply orb_prop in Ec as [Ec|Ec].
    + apply Z.geb_le in Ec. exact Ec.
    + apply Z.eqb_eq in Ec. lia.
  - rewrite which_eigenvalues_result, Hs.
    destruct (conjugate_pairs _ _ _ _) as [sel nn].
    destruct (ordschur _ _ _) as [X' T'].
    apply orb_false_elim in Ec as [Ec _].
    rewrite Z.geb_leb in Ec. apply Z.leb_gt in Ec.
    unfold same_members. cbn [nconv sizeV nev_new m_nev m_info m_niter m_evals m_evecs
      m_evals_conv m_n m_ncv m_op m_op_container set_evals_conv set_nmatop set_fac]
      in Ec |- *.
    repeat split; try reflexivity. exact Ec.
Qed.

Lemma same_members_refl (s : Solver) : same_members s s.
Proof. unfold same_members. repeat split; reflexivity. Qed.

Lemma same_members_trans (s1 s2 s3 : Solver) :
  same_members s1 s2 -> same_members s2 s3 -> same_members s1 s3.
Proof. unfold same_members. intuition congruence. Qed.

(** Every way the loop can end. [fuel] turns are left, the first of them
    with counter [i0]; the loop is entered with [i0 + fuel <= maxit]. *)
Lemma compute_loop_exit (selection : SortRule) (maxit : Z) (tol : S) (fuel : nat) :
  forall (i0 : Z) (l0 : Locals) (s0 : Solver),
  ((0 < fuel)%nat -> i0 + Z.of_nat fuel <= maxit) ->
  match compute_loop selection maxit tol fuel i0 l0 s0 with
  | Fell i l s =>
      same_members s0 s /\ m_info s = m_info s0 /\ m_niter s = m_niter s0 /\
      m_evals s = m_evals s0 /\ m_evecs s = m_evecs s0 /\
      ((fuel = O /\ i = i0 /\ l = l0 /\ s = s0) \/
       ((0 < fuel)%nat /\ supported selection = true /\
        nconv l = Z.of_nat (count_true (m_evals_conv s)) /\
        ((i = i0 + Z.of_nat fuel /\ nconv l < m_nev s) \/
         (i0 <= i < i0 + Z.of_nat fuel /\ m_nev s <= nconv l))))
  | Returned r s =>
      (0 < fuel)%nat /\ r = 0 /\ same_members s0 s /\
      m_info s = m_info s0 /\ m_niter s = m_niter s0 /\
      m_evals s = [] /\ m_evecs s = []
  | Threw e s =>
      (0 < fuel)%nat /\ supported selection = false /\ same_members s0 s /\
      m_info s = m_info s0 /\ m_niter s = m_niter s0 /\
      m_evals s = m_evals s0 /\ m_evecs s = m_evecs s0 /\
      m_evals_conv s = m_evals_conv s0
  end.
Proof.
  induction fuel as [|fuel IH]; intros i0 l0 s0 Hcap.
  - cbn. split; [apply same_members_refl|]. repeat split; try reflexivity.
    left. repeat split; reflexivity.
  - cbn [compute_loop].
    assert (Hi : i0 < maxit) by (specialize (Hcap ltac:(lia)); lia).
    pose proof (compute_body_effect selection maxit tol i0 l0 s0 Hi) as B.
    destruct (compute_body selection maxit tol i0 l0 s0) as [l1 s1|l1 s1|r s1|e s1].
    + destruct B as (M & I & N & E1 & E2 & C & Cn & _ & Hs).
      specialize (IH (i0 + 1) l1 s1 ltac:(intros; specialize (Hcap ltac:(lia)); lia)).
      destruct (compute_loop selection maxit tol fuel (i0 + 1) l1 s1) as [i l s|r s|e s].
      * destruct IH as (M' & I' & N' & E1' & E2' & D).
        split; [eapply same_members_trans; eassumption|].
        repeat split; try congruence.
        right. split; [lia|]. split; [exact Hs|].
        destruct D as [(F & -> & -> & ->)|(F & _ & Cn' & D)].
        -- split; [exact Cn|]. left. subst fuel. split; [lia|exact C].
        -- split; [exact Cn'|]. destruct D as [[-> D]|[D1 D2]]; [left|right]; split; lia.
      * destruct IH as (_ & -> & M' & I' & N' & E1' & E2').
        split; [lia|]. split; [reflexivity|].
        split; [eapply same_members_trans; eassumption|].
        repeat split; congruence.
      * destruct IH as (_ & Hs' & _). congruence.
    + destruct B as (M & I & N & E1 & E2 & C & Cn & Hs).
      split; [exact M|]. repeat split; try assumption.
      right. split; [lia|]. split; [exact Hs|]. split; [exact Cn|].
      right. split; [lia|exact C].
    + destruct B as (-> & M & I & N & E1 & E2 & _).
      split; [lia|]. split; [reflexivity|]. split; [exact M|].
      repeat split; assumption.
    + destruct B as (M & I & N & E1 & E2 & E3 & Hs).
      split; [lia|]. split; [exact Hs|]. split; [exact M|].
      repeat split; assumption.
Qed.

(** Every way a call of [compute] can end: the exception, the breakdown,
    no turn at all, convergence in turn [i], or the cap used up. *)
Lemma compute_outcome (selection sorting : SortRule) (maxit : Z) (tol : S) (s : Solver) :
  let out := fst (compute selection maxit tol sorting s) in
  let s' := snd (compute selection maxit tol sorting s) in
  let count := Z.of_nat (count_true (m_evals_conv s')) in
  same_members s s' /\
  ((out = inl invalid_argument /\ supported selection = false /\ 1 <= maxit /\
    m_info s' = m_info s /\ m_niter s' = m_niter s /\
    m_evals s' = m_evals s /\ m_evecs s' = m_evecs s /\
    m_evals_conv s' = m_evals_conv s) \/
   (out = inr 0 /\ 1 <= maxit /\
    m_info s' = m_info s /\ m_niter s' = m_niter s /\
    m_evals s' = [] /\ m_evecs s' = []) \/
   (maxit <= 0 /\ out = inr (Z.min (m_nev s) 0) /\
    m_info s' = (if 0 >=? m_nev s then Successful else NotConverging) /\
    m_niter s' = m_niter s + 1 /\
    m_fac s' = m_fac s /\ m_nmatop s' = m_nmatop s /\
    m_evals_conv s' = m_evals_conv s /\
    (length (m_evals s') <= Z.to_nat (m_nev s))%nat) \/
   (exists i, 0 <= i < maxit /\ supported selection = true /\
    out = inr (m_nev s) /\ m_nev s <= count /\
    m_info s' = Successful /\ m_niter s' = m_niter s + (i + 1) /\
    (length (m_evals s') <= Z.to_nat (m_nev s))%nat) \/
   (1 <= maxit /\ supported selection = true /\
    out = inr count /\ count < m_nev s /\
    m_info s' = NotConverging /\ m_niter s' = m_niter s + (maxit + 1) /\
    (length (m_evals s') <= Z.to_nat (m_nev s))%nat)).
Proof.
  cbv zeta. unfold compute.
  pose proof (compute_loop_exit selection maxit tol (Z.to_nat maxit) 0
                (initial_locals s) s ltac:(lia)) as L.
  destruct (compute_loop selection maxit tol (Z.to_nat maxit) 0 (initial_locals s) s)
    as [i l s1|r s1|e s1].
  - destruct L as (M & I & N & _ & _ & D).
    assert (Hlen : forall x : list (S * S),
               (length (map fst (firstn (Z.to_nat (m_nev s1)) x)) <= Z.to_nat (m_nev s))%nat).
    { intros x. rewrite length_map, length_firstn.
      destruct M as (_ & _ & _ & -> & _). lia. }
    assert (Hnev : m_nev s1 = m_nev s) by (destruct M as (_ & _ & _ & M & _); exact M).
    unfold export.
    cbn [fst snd m_nev m_info m_niter m_evals m_evecs m_evals_conv m_fac m_nmatop
         set_evals set_evecs set_niter set_info].
    split.
    { unfold same_members in *. cbn. exact M. }
    destruct D as [(F & -> & -> & ->)|(F & Hs & Cn & D)].
    + right. right. left. cbn [nconv initial_locals].
      split; [lia|]. repeat split; try reflexivity. apply Hlen.
    + right. right. right. rewrite <- Cn.
      destruct D as [[-> C]|[Hi C]].
      * right.
        assert (E : (nconv l >=? m_nev s1) = false)
          by (rewrite Z.geb_leb; apply Z.leb_gt; lia).
        rewrite E, Z.min_r by lia.
        repeat split; try reflexivity; try lia; try exact Hs. apply Hlen.
      * left. exists i.
        assert (E : (nconv l >=? m_nev s1) = true) by (apply Z.geb_le; lia).
        rewrite E, Z.min_l by lia.
        repeat split; try reflexivity; try lia; try exact Hs;
          [f_equal; exact Hnev|apply Hlen].
  - destruct L as (F & -> & M & I & N & E1 & E2). cbn [fst snd].
    split; [exact M|]. right. left. repeat split; try assumption. lia.
  - destruct L as (F & Hs & M & I & N & E1 & E2 & E3). cbn [fst snd].
    split; [exact M|]. left. destruct e. repeat split; try assumption. lia.
Qed.

(** *** What a caller can rely on after compute *)

(** X1. With one of the six supported rules and at least one turn allowed
    [compute] never throws: it returns a count, and on a constructed solver
    the count lies between 0 and [nev]. *)
Theorem compute_supported_rule_returns (selection sorting : SortRule) (maxit : Z)
        (tol : S) (s : Solver) :
  1 <= maxit ->
  supported selection = true ->
  constructed s ->
  exists r, fst (compute selection maxit tol sorting s) = inr r /\ 0 <= r <= m_nev s.
Proof.
  intros Hmax Hs [[Hnev _] _].
  destruct (compute_outcome selection sorting maxit tol s) as (_ & D).
  cbv zeta in D.
  destruct D as [D|[D|[D|[D|D]]]].
  - destruct D as (_ & Hu & _). congruence.
  - destruct D as (E & _). exists 0. split; [exact E|lia].
  - destruct D as (Hm & _). lia.
  - destruct D as (i & _ & _ & E & _). exists (m_nev s). split; [exact E|lia].
  - destruct D as (_ & _ & E & C & _). eexists. split; [exact E|lia].
Qed.

(** X2. [compute] throws only when the rule is not one of the six and at
    least one turn is allowed; and whenever it throws, the status, the
    iteration counter, the eigenvalue vector, the eigenvector matrix and
    the convergence flags are those from before the call. *)
Theorem compute_throw_keeps_results (selection sorting : SortRule) (maxit : Z)
        (tol : S) (s : Solver) (e : Exn) :
  fst (compute selection maxit tol sorting s) = inl e ->
  let s' := snd (compute selection maxit tol sorting s) in
  supported selection = false /\ 1 <= maxit /\
  info s' = info s /\ num_iterations s' = num_iterations s /\
  eigenvalues s' = eigenvalues s /\ m_evecs s' = m_evecs s /\
  m_evals_conv s' = m_evals_conv s /\
  eigenvectors s' = leftCols (Z.to_nat (Z.min (m_nev s)
                                           (Z.of_nat (count_true (m_evals_conv s)))))
                             (matrix_V (m_fac s')).
Proof.
  intros E. cbv zeta.
  destruct (compute_outcome selection sorting maxit tol s) as (M & D).
  cbv zeta in D.
  destruct D as [D|[D|[D|[D|D]]]];
    try (destruct D as (E' & _); congruence);
    try (destruct D as (_ & E' & _); congruence);
    try (destruct D as (_ & _ & E' & _); congruence);
    try (destruct D as (i & _ & _ & E' & _); congruence).
  destruct D as (_ & Hu & Hm & I & N & E1 & E2 & E3).
  unfold info, num_iterations, eigenvalues, eigenvectors, eigenvectors_n.
  destruct M as (_ & _ & _ & Hnev & _). rewrite E3, Hnev.
  repeat split; assumption.
Qed.

(** X3. On a constructed solver whose status is [NotComputed], with at
    least one turn allowed, the status after the call tells how the call
    ended. Still [NotComputed]: it threw or met a breakdown, and the
    iteration counter has not moved. [Successful]: it returned [nev] from
    a turn [i < maxit] and counted [i + 1] iterations. [NotConverging]: it
    returned fewer than [nev], and it counted [maxit + 1] iterations, one
    more than the cap allows turns. *)
Theorem compute_status_tells_outcome (selection sorting : SortRule) (maxit : Z)
        (tol : S) (s : Solver) :
  1 <= maxit ->
  constructed s ->
  info s = NotComputed ->
  let out := fst (compute selection maxit tol sorting s) in
  let s' := snd (compute selection maxit tol sorting s) in
  (info s' = NotComputed ->
     (out = inl invalid_argument \/ out = inr 0) /\
     num_iterations s' = num_iterations s) /\
  (info s' = Successful ->
     out = inr (m_nev s) /\
     exists i, 0 <= i < maxit /\ num_iterations s' = num_iterations s + (i + 1)) /\
  (info s' = NotConverging ->
     (exists r, out = inr r /\ 0 <= r < m_nev s) /\
     num_iterations s' = num_iterations s + (maxit + 1)).
Proof.
  intros Hmax [[Hnev _] _] Hinfo. cbv zeta. unfold info, num_iterations in *.
  destruct (compute_outcome selection sorting maxit tol s) as (_ & D).
  cbv zeta in D.
  destruct D as [D|[D|[D|[D|D]]]].
  - destruct D as (E & _ & _ & I & N & _).
    split; [|split]; intros Hx; try congruence.
    split; [left; exact E|exact N].
  - destruct D as (E & _ & I & N & _).
    split; [|split]; intros Hx; try congruence.
    split; [right; exact E|exact N].
  - destruct D as (Hm & _). lia.
  - destruct D as (i & Hi & _ & E & _ & I & N & _).
    split; [|split]; intros Hx; try congruence.
    split; [exact E|]. exists i. split; [exact Hi|exact N].
  - destruct D as (Hm & _ & E & C & I & N & _).
    split; [|split]; intros Hx; try congruence.
    split; [|exact N].
    eexists. split; [exact E|lia].
Qed.

(** X4. When a call with at least one turn allowed changes the status of a
    [NotComputed] solver, the matrix [eigenvectors()] hands out afterwards
    consists of the first [r] columns of the engine's basis, where [r] is
    the count the call returned, and [eigenvalues()] has at most [nev]
    entries. *)
Theorem eigenvectors_columns_match_return (selection sorting : SortRule) (maxit : Z)
        (tol : S) (s : Solver) :
  1 <= maxit ->
  info s = NotComputed ->
  info (snd (compute selection maxit tol sorting s)) <> NotComputed ->
  exists r,
    fst (compute selection maxit tol sorting s) = inr r /\
    eigenvectors (snd (compute selection maxit tol sorting s))
    = leftCols (Z.to_nat r) (matrix_V (m_fac (snd (compute selection maxit tol sorting s)))) /\
    (length (eigenvalues (snd (compute selection maxit tol sorting s)))
     <= Z.to_nat (m_nev s))%nat.
Proof.
  intros Hm Hinfo Hdone. unfold info, eigenvalues, eigenvectors, eigenvectors_n in *.
  destruct (compute_outcome selection sorting maxit tol s) as (M & D).
  cbv zeta in D. destruct M as (_ & _ & _ & Hnev & _).
  destruct D as [D|[D|[D|[D|D]]]].
  - destruct D as (_ & _ & _ & I & _). congruence.
  - destruct D as (_ & _ & I & _). congruence.
  - destruct D as (Hm' & _). lia.
  - destruct D as (i & _ & _ & E & C & _ & _ & L).
    exists (m_nev s). split; [exact E|]. split; [|exact L].
    rewrite Hnev, Z.min_l by exact C. reflexivity.
  - destruct D as (_ & _ & E & C & _ & _ & L).
    eexists. split; [exact E|]. split; [|exact L].
    rewrite Hnev, Z.min_r by lia. reflexivity.
Qed.

Lemma init_same_members (init_resid : list S) (s : Solver) :
  same_members s (init init_resid s).
Proof.
  unfold init.
  cbn [m_n m_fac m_nmatop set_evals set_evecs set_evals_conv set_nmatop set_niter
       m_op_container m_op m_nev m_ncv m_niter m_evals m_evecs m_evals_conv m_info].
  destruct (fac_init _ _ _) as [fac c]. unfold same_members. cbn.
  repeat split; reflexivity.
Qed.

(** X6. The operator, its container and the sizes [n], [nev], [ncv] are
    the same after [init], after [init()] and after [compute], however the
    call ends; so the ranges the constructor checked hold for the whole
    life of the solver. *)
Theorem solver_ranges_are_kept (selection sorting : SortRule) (maxit : Z) (tol : S)
        (init_resid : list S) (s : Solver) :
  constructed s ->
  (same_members s (init init_resid s) /\ constructed (init init_resid s)) /\
  (same_members s (init_random s) /\ constructed (init_random s)) /\
  (same_members s (snd (compute selection maxit tol sorting s)) /\
   constructed (snd (compute selection maxit tol sorting s))).
Proof.
  intros Hc.
  assert (Keep : forall s', same_members s s' -> same_members s s' /\ constructed s').
  { intros s' M. split; [exact M|].
    destruct M as (_ & _ & H1 & H2 & H3). unfold constructed in *.
    rewrite H1, H2, H3. exact Hc. }
  split; [apply Keep, init_same_members|].
  split; [apply Keep; unfold init_random; apply init_same_members|].
  apply Keep. destruct (compute_outcome selection sorting maxit tol s) as (M & _). exact M.
Qed.

(** *** Construction, init and the accessors *)

(** X7. A solver either constructor yields holds the arguments as given
    ([ncv] is never the clamped value), lies in the checked ranges, belongs
    to an operator of dimension at least 2, and has empty result buffers;
    the rvalue constructor keeps the operator in its container and refers
    to that copy. *)
Theorem constructor_establishes_ranges (op : Op) (Bop : BOp) (nev ncv : Z) (s : Solver) :
  KrylovSchurGEigsBase_lvalue op Bop nev ncv = inr s \/
  KrylovSchurGEigsBase_rvalue op Bop nev ncv = inr s ->
  constructed s /\ 2 <= rows op /\
  m_n s = rows op /\ m_nev s = nev /\ m_ncv s = ncv /\ m_op s = op /\
  (KrylovSchurGEigsBase_lvalue op Bop nev ncv = inr s -> m_op_container s = []) /\
  (KrylovSchurGEigsBase_rvalue op Bop nev ncv = inr s -> m_op_container s = [op]) /\
  eigenvalues s = [] /\ m_evecs s = [] /\ m_evals_conv s = [] /\
  m_fac s = KrylovFac op Bop ncv.
Proof.
  unfold KrylovSchurGEigsBase_lvalue, KrylovSchurGEigsBase_rvalue.
  cbn [create_op_container hd].
  assert (G : forall container,
             construct container op Bop nev ncv = inr s ->
             constructed s /\ 2 <= rows op /\
             m_n s = rows op /\ m_nev s = nev /\ m_ncv s = ncv /\ m_op s = op /\
             m_op_container s = container /\
             eigenvalues s = [] /\ m_evecs s = [] /\ m_evals_conv s = [] /\
             m_fac s = KrylovFac op Bop ncv).
  { intros container E.
    pose proof (constructed_of_construct _ _ _ _ _ _ E) as Hc.
    unfold construct in E. cbn [m_n] in E.
    destruct ((nev <? 1) || (nev >? rows op - 1)); [discriminate|].
    destruct ((ncv <=? nev) || (ncv >? rows op)) eqn:C2; [discriminate|].
    apply orb_false_elim in C2 as [_ C2]. rewrite C2 in E.
    injection E as <-. unfold constructed in *. cbn in *.
    repeat split; try reflexivity; lia. }
  assert (Gc : forall container,
             construct container op Bop nev ncv = inr s -> m_op_container s = container).
  { intros container E. apply (G container E). }
  intros E.
  assert (A : exists container, construct container op Bop nev ncv = inr s)
    by (destruct E as [E|E]; eexists; exact E).
  destruct A as (container & A).
  destruct (G _ A) as (A1 & A2 & A3 & A4 & A5 & A6 & _ & A8 & A9 & A10 & A11).
  exact (conj A1 (conj A2 (conj A3 (conj A4 (conj A5 (conj A6
          (conj (Gc []) (conj (Gc [op]) (conj A8 (conj A9 (conj A10 A11))))))))))).
Qed.

(** X8. No solver can be built on an operator of dimension below 2: both
    constructors throw for every [nev] and [ncv]. *)
Theorem constructor_rejects_small_operators (op : Op) (Bop : BOp) (nev ncv : Z) :
  rows op <= 1 ->
  KrylovSchurGEigsBase_lvalue op Bop nev ncv = inl invalid_argument /\
  KrylovSchurGEigsBase_rvalue op Bop nev ncv = inl invalid_argument.
Proof.
  intros Hn. unfold KrylovSchurGEigsBase_lvalue, KrylovSchurGEigsBase_rvalue.
  cbn [create_op_container hd].
  split; apply construct_fails_iff; lia.
Qed.

Lemma count_true_repeat_false (n : nat) : count_true (repeat false n) = O.
Proof. induction n as [|n IH]; [reflexivity|exact IH]. Qed.

(** X9. After [init] (either overload) on a constructed solver the
    accessors for the eigenvectors return a matrix without columns,
    whatever non-negative number is asked for and whatever an earlier run
    left; [eigenvalues()] has [ncv] entries, not [nev]. *)
Theorem eigenvectors_empty_after_init (init_resid : list S) (nvec : Z) (s : Solver) :
  0 <= nvec ->
  constructed s ->
  eigenvectors_n nvec (init init_resid s) = [] /\
  eigenvectors (init init_resid s) = [] /\
  eigenvectors_n nvec (init_random s) = [] /\
  eigenvectors (init_random s) = [] /\
  length (eigenvalues (init init_resid s)) = Z.to_nat (m_ncv s) /\
  length (eigenvalues (init_random s)) = Z.to_nat (m_ncv s).
Proof.
  intros Hnvec Hc.
  assert (G : forall r n, 0 <= n ->
                          eigenvectors_n n (init r s) = []
                          /\ length (eigenvalues (init r s)) = Z.to_nat (m_ncv s)).
  { intros r n Hn. unfold eigenvectors_n, eigenvalues, init.
    cbn [m_n m_fac m_nmatop set_evals set_evecs set_evals_conv set_nmatop set_niter
         m_op_container m_op m_nev m_ncv m_niter m_evals m_evecs m_evals_conv m_info].
    destruct (fac_init _ _ _) as [fac c].
    cbn [m_evals_conv m_evals m_fac set_nmatop set_fac set_niter set_evals_conv
         set_evecs set_evals].
    rewrite count_true_repeat_false, repeat_length.
    replace (Z.to_nat (Z.min n (Z.of_nat 0))) with O by lia.
    split; reflexivity. }
  assert (Hnev : forall r, 0 <= m_nev (init r s)).
  { intros r. destruct (init_same_members r s) as (_ & _ & _ & -> & _).
    destruct Hc as [[H _] _]. lia. }
  unfold eigenvectors, init_random.
  split; [exact (proj1 (G init_resid nvec Hnvec))|].
  split; [exact (proj1 (G init_resid _ (Hnev _)))|].
  split; [exact (proj1 (G _ nvec Hnvec))|].
  split; [exact (proj1 (G _ _ (Hnev _)))|].
  split; [exact (proj2 (G init_resid nvec Hnvec))|exact (proj2 (G _ nvec Hnvec))].
Qed.

(** *** The restart size *)

(** X10. With [1 <= nev < ncv], more than three Krylov directions and a
    non-negative count, the restart never keeps a single direction: the
    adjusted size is at least 2. *)
Theorem nev_adjusted_at_least_two (s : Solver) (nconv nconv_prev : Z) :
  1 <= m_nev s < m_ncv s ->
  3 < m_ncv s ->
  0 <= nconv ->
  2 <= nev_adjusted s nconv nconv_prev.
Proof.
  intros Hs Hncv Hc. unfold nev_adjusted.
  set (nev := m_nev s) in *. set (ncv := m_ncv s) in *.
  assert (Hq : 0 <= Z.quot (ncv - nev) 2)
    by (rewrite Z.quot_div_nonneg by lia; apply Z.div_pos; lia).
  assert (Hh : 2 <= Z.quot ncv 2)
    by (rewrite Z.quot_div_nonneg by lia; apply Z.div_le_lower_bound; lia).
  assert (E2 : (ncv >? 3) = true) by (rewrite Z.gtb_ltb; apply Z.ltb_lt; lia).
  rewrite E2, andb_true_r.
  destruct (Z.eqb_spec (nev + Z.min nconv (Z.quot (ncv - nev) 2)) 1) as [E1|E1];
    match goal with
    | |- context [if ?c then _ else _] => destruct c
    end; lia.
Qed.

(** X11. The count of the previous turn can only add one to the restart
    size: the size does not decrease when [nconv_prev] grows, and two
    values of [nconv_prev] change it by at most 1. *)
Theorem nev_adjusted_stagnation_step (s : Solver) (nconv a b : Z) :
  a <= b ->
  nev_adjusted s nconv a <= nev_adjusted s nconv b <= nev_adjusted s nconv a + 1.
Proof.
  intros Hab. unfold nev_adjusted.
  set (x := if (m_nev s + Z.min nconv (Z.quot (m_ncv s - m_nev s) 2) =? 1)
               && (m_ncv s >? 3)
            then Z.quot (m_ncv s) 2
            else m_nev s + Z.min nconv (Z.quot (m_ncv s - m_nev s) 2)).
  rewrite !Z.gtb_ltb.
  destruct (x + 1 <? m_ncv s); cbn [andb]; [|lia].
  destruct (Z.ltb_spec nconv a), (Z.ltb_spec nconv b); lia.
Qed.

(** *** The mask of a restart *)

(** X12. Where [T] is upper triangular (every sub-diagonal entry is zero,
    as for real Ritz values throughout) the conjugate-pair pass changes
    neither the mask nor [nev_new]. *)
Theorem conjugate_pairs_without_blocks (T : Matrix) (ncv : Z) (ind_sel : list nat)
        (select : list bool) (nev_new : Z) :
  (forall k, seqb (coeff T (k + 1) k) szero = true) ->
  conjugate_pairs T ncv ind_sel (select, nev_new) = (select, nev_new).
Proof.
  intros Hz. unfold conjugate_pairs.
  induction ind_sel as [|i rest IH]; [reflexivity|].
  cbn [fold_left].
  assert (E : pair_step T ncv (select, nev_new) i = (select, nev_new)).
  { unfold pair_step. rewrite Hz. cbn [negb andb]. rewrite andb_false_r. cbn [andb].
    destruct i as [|i].
    - reflexivity.
    - replace (Datatypes.S i - 1)%nat with i by lia.
      replace (Datatypes.S i) with (i + 1)%nat at 2 by lia.
      rewrite Hz. cbn [negb]. rewrite andb_false_r. reflexivity. }
  rewrite E. exact IH.
Qed.

Lemma mark_selected_length (idx : list nat) (select : list bool) :
  length (mark_selected idx select) = length select.
Proof.
  unfold mark_selected. revert select.
  induction idx as [|p idx IH]; intros select; [reflexivity|].
  cbn [fold_left]. rewrite IH. apply set_nth_length.
Qed.

Lemma mark_selected_count (idx : list nat) :
  NoDup idx ->
  forall select : list bool,
  Forall (fun p => (p < length select)%nat /\ nth p select false = false) idx ->
  count_true (mark_selected idx select) = (count_true select + length idx)%nat /\
  (forall p, In p idx -> nth p (mark_selected idx select) false = true).
Proof.
  unfold mark_selected.
  induction 1 as [|p idx Hp Hnd IH]; intros select Hall.
  - cbn [fold_left length]. rewrite Nat.add_0_r. split; [reflexivity|contradiction].
  - cbn [fold_left length]. inversion Hall as [|? ? [Hlt Hf] Hrest]; subst.
    destruct (IH (set_nth p true select)) as [IHc IHm].
    { apply Forall_forall. intros q Hq.
      rewrite Forall_forall in Hrest. destruct (Hrest q Hq) as [Hql Hqf].
      rewrite set_nth_length. split; [exact Hql|].
      rewrite set_nth_other; [exact Hqf|]. intros ->. contradiction. }
    rewrite IHc, count_true_set_nth by assumption. split; [lia|].
    intros q [<-|Hq]; [|apply IHm, Hq].
    clear IHc IHm Hall Hrest Hp Hnd IH.
    assert (G : forall (l : list nat) (sel : list bool),
               nth p sel false = true ->
               nth p (fold_left (fun sel q => set_nth q true sel) l sel) false = true).
    { induction l as [|q l IHl]; intros sel Hs; [exact Hs|].
      cbn [fold_left]. apply IHl, set_nth_true_mono, Hs. }
    apply G, set_nth_same, Hlt.
Qed.

Lemma count_true_le_length (l : list bool) : (count_true l <= length l)%nat.
Proof. unfold count_true. apply filter_length_le. Qed.

Lemma count_true_kept (select : list bool) : count_true select = length (kept select).
Proof. unfold kept. apply count_true_positions. Qed.

Lemma count_true_mono (a b : list bool) :
  length b = length a ->
  (forall j, nth j a false = true -> nth j b false = true) ->
  (count_true a <= count_true b)%nat.
Proof.
  intros L M. rewrite !count_true_positions, L.
  induction (seq 0 (length a)) as [|j js IH]; [apply Nat.le_refl|].
  cbn [filter]. destruct (nth j a false) eqn:E.
  - rewrite (M j E). cbn [length]. lia.
  - destruct (nth j b false); cbn [length]; lia.
Qed.

(** The mask of a restart keeps the first [nev_new] sorted positions and
    nothing else. *)
Lemma restart_mask_count (ncv : Z) (ind_sel : list nat) (nev_new : Z) :
  Permutation ind_sel (seq 0 (Z.to_nat ncv)) ->
  0 <= nev_new <= ncv ->
  length (restart_mask ncv ind_sel nev_new) = Z.to_nat ncv /\
  Z.of_nat (count_true (restart_mask ncv ind_sel nev_new)) = nev_new /\
  (forall p, In p (firstn (Z.to_nat nev_new) ind_sel) ->
             nth p (restart_mask ncv ind_sel nev_new) false = true).
Proof.
  intros Hperm Hrange.
  assert (Hall : Forall (fun i => (i < Z.to_nat ncv)%nat) ind_sel).
  { apply Forall_forall. intros i Hi.
    apply (Permutation_in _ Hperm) in Hi. apply in_seq in Hi. lia. }
  assert (Hnd : NoDup (firstn (Z.to_nat nev_new) ind_sel)).
  { assert (Hn : NoDup ind_sel)
      by (apply (Permutation_NoDup (Permutation_sym Hperm)), seq_NoDup).
    rewrite <- (firstn_skipn (Z.to_nat nev_new) ind_sel) in Hn.
    apply NoDup_app_remove_r in Hn. exact Hn. }
  destruct (mark_selected_count _ Hnd (repeat false (Z.to_nat ncv))) as [Hc Hm].
  { apply Forall_forall. intros p Hp. rewrite repeat_length. split.
    - rewrite Forall_forall in Hall. apply Hall.
      rewrite <- (firstn_skipn (Z.to_nat nev_new) ind_sel).
      apply in_or_app. left. exact Hp.
    - apply nth_repeat. }
  fold (restart_mask ncv ind_sel nev_new) in Hc, Hm.
  rewrite count_true_repeat_false, length_firstn in Hc.
  assert (Hli : length ind_sel = Z.to_nat ncv)
    by (rewrite (Permutation_length Hperm); apply length_seq).
  split; [unfold restart_mask; rewrite mark_selected_length; apply repeat_length|].
  split; [lia|exact Hm].
Qed.

(** X13. In a restart, with the sort result a permutation of the positions
    [0 .. ncv-1] and [0 <= nev_new <= ncv]: the mask built from the first
    [nev_new] sorted positions keeps exactly [nev_new] positions, those
    among them; and after the conjugate-pair pass [nev_new] is again the
    number of kept positions, which is what [ordschur] moves to the front
    and what the contraction then cuts out. It has not decreased and does
    not exceed [ncv]. *)
Theorem restart_size_counts_kept (T : Matrix) (ncv : Z) (ind_sel : list nat) (nev_new : Z) :
  Permutation ind_sel (seq 0 (Z.to_nat ncv)) ->
  0 <= nev_new <= ncv ->
  let select := restart_mask ncv ind_sel nev_new in
  let select' := fst (conjugate_pairs T ncv ind_sel (select, nev_new)) in
  let nev_new' := snd (conjugate_pairs T ncv ind_sel (select, nev_new)) in
  Z.of_nat (count_true select) = nev_new /\
  (forall p, In p (firstn (Z.to_nat nev_new) ind_sel) -> nth p select' false = true) /\
  nev_new' = Z.of_nat (length (kept select')) /\
  nev_new <= nev_new' <= ncv.
Proof.
  intros Hperm Hrange select select' nev_new'.
  destruct (restart_mask_count ncv ind_sel nev_new Hperm Hrange) as (Hlen0 & Hc & Hm).
  fold select in Hlen0, Hc, Hm.
  assert (Hall : Forall (fun i => (i < Z.to_nat ncv)%nat) ind_sel).
  { apply Forall_forall. intros i Hi.
    apply (Permutation_in _ Hperm) in Hi. apply in_seq in Hi. lia. }
  destruct (conjugate_pairs_effect T ncv ind_sel Hall select nev_new Hlen0)
    as (L & M & C & _).
  fold select' in L, M, C. fold nev_new' in C.
  pose proof (count_true_le_length select') as Hle.
  pose proof (count_true_mono select select' L M) as Hmono.
  split; [exact Hc|]. split; [intros p Hp; apply M, Hm, Hp|].
  split; [rewrite <- count_true_kept; lia|lia].
Qed.

(** *** The size the engine restarts from *)

Lemma nev_adjusted_range (s : Solver) (nconv nconv_prev : Z) :
  1 <= m_nev s < m_ncv s -> 0 <= nconv ->
  m_nev s <= nev_adjusted s nconv nconv_prev < m_ncv s.
Proof.
  intros Hs Hc. unfold nev_adjusted.
  set (nev := m_nev s) in *. set (ncv := m_ncv s) in *.
  assert (Hq : 0 <= Z.quot (ncv - nev) 2 < ncv - nev).
  { rewrite Z.quot_div_nonneg by lia. split.
    - apply Z.div_pos; lia.
    - apply Z.div_lt_upper_bound; lia. }
  assert (Hh : 3 < ncv -> 2 <= Z.quot ncv 2 < ncv).
  { intros H3. rewrite Z.quot_div_nonneg by lia. split.
    - apply Z.div_le_lower_bound; lia.
    - apply Z.div_lt_upper_bound; lia. }
  rewrite !Z.gtb_ltb.
  destruct (Z.eqb_spec (nev + Z.min nconv (Z.quot (ncv - nev) 2)) 1);
    destruct (Z.ltb_spec 3 ncv); cbn [andb];
    match goal with
    | |- context [(?a + 1 <? ncv) && ?b] =>
        destruct (Z.ltb_spec (a + 1) ncv); destruct b; cbn [andb]
    end; lia.
Qed.

(** A turn that restarts hands on a size between [nev] and [ncv]. *)
Lemma compute_body_next_size (selection : SortRule) (maxit : Z) (tol : S)
      (i : Z) (l l' : Locals) (s s' : Solver) :
  1 <= m_nev s < m_ncv s ->
  (forall rule v, Permutation (SortEigenvalue rule v (m_ncv s))
                              (seq 0 (Z.to_nat (m_ncv s)))) ->
  compute_body selection maxit tol i l s = Next l' s' ->
  m_nev s <= sizeV l' <= m_ncv s.
Proof.
  intros Hr Hsort. unfold compute_body.
  destruct (factorize_from _ _ _ _) as [[stop fac] count].
  destruct stop; [discriminate|].
  destruct (RealSchur _) as [X T].
  destruct (EigenSolver T) as [ev evec].
  rewrite which_eigenvalues_result.
  destruct (supported selection) eqn:Hs; [|discriminate].
  cbn [num_converged].
  match goal with |- context [if ?c then _ else _] => destruct c end; [discriminate|].
  rewrite which_eigenvalues_result, Hs.
  cbn [m_nev m_ncv m_evals_conv set_evals_conv set_nmatop set_fac].
  match goal with
  | |- context [conjugate_pairs ?T0 ?n ?ind0 (?sel0, nev_adjusted ?s0 ?c ?c0)] =>
      pose proof (nev_adjusted_range s0 c c0 Hr ltac:(apply Nat2Z.is_nonneg)) as Ha;
      cbn [m_nev m_ncv m_evals_conv set_evals_conv set_nmatop set_fac] in Ha;
      destruct (restart_mask_count n ind0 (nev_adjusted s0 c c0) (Hsort _ _)
                  ltac:(lia)) as (R1 & R2 & _);
      unfold restart_mask in R1, R2;
      assert (Hall : Forall (fun j => (j < Z.to_nat n)%nat) ind0)
        by (apply Forall_forall; intros j Hj;
            apply (Permutation_in _ (Hsort _ _)) in Hj; apply in_seq in Hj; lia);
      pose proof (conjugate_pairs_effect T0 n ind0 Hall sel0 (nev_adjusted s0 c c0) R1)
        as (L & M & C & _);
      pose proof (count_true_mono _ _ L M) as Hmono;
      pose proof (count_true_le_length
                    (fst (conjugate_pairs T0 n ind0 (sel0, nev_adjusted s0 c c0)))) as Hle;
      destruct (conjugate_pairs T0 n ind0 (sel0, nev_adjusted s0 c c0)) as [sel1 nn]
  end.
  destruct (ordschur _ _ _) as [X' T'].
  intros E. injection E as <- _. cbn [sizeV fst snd] in *. lia.
Qed.

(** The turns reached from a solver in the constructor's ranges. *)
Lemma reaches_restart_size (selection : SortRule) (maxit : Z) (tol : S)
      (c1 c2 : Z * Locals * Solver) :
  reaches selection maxit tol c1 c2 ->
  forall i0 l0 s0 i l s, c1 = (i0, l0, s0) -> c2 = (i, l, s) ->
  1 <= m_nev s0 < m_ncv s0 ->
  (forall rule v, Permutation (SortEigenvalue rule v (m_ncv s0))
                              (seq 0 (Z.to_nat (m_ncv s0)))) ->
  (i = i0 /\ l = l0 /\ s = s0) \/
  (i0 < i <= maxit /\ same_members s0 s /\ m_nev s0 <= sizeV l <= m_ncv s0).
Proof.
  induction 1 as [c|j lj sj l' s' c Hj Hbody Hreach IH];
    intros i0 l0 s0 i l s E1 E2 Hr Hsort.
  - subst c. injection E2 as -> -> ->. left. repeat split; reflexivity.
  - injection E1 as -> -> ->. right.
    pose proof (compute_body_next_size _ _ _ _ _ _ _ _ Hr Hsort Hbody) as Hsize.
    pose proof (compute_body_effect selection maxit tol i0 l0 s0 Hj) as B.
    rewrite Hbody in B. destruct B as (M & _).
    assert (Hnev : m_nev s' = m_nev s0) by apply M.
    assert (Hncv : m_ncv s' = m_ncv s0) by apply M.
    destruct (IH (i0 + 1) l' s' i l s eq_refl E2) as [(-> & -> & ->)|(Hi & M' & Hs)].
    + rewrite Hnev, Hncv. exact Hr.
    + rewrite Hncv. exact Hsort.
    + split; [lia|]. split; [exact M|exact Hsize].
    + split; [lia|]. split; [eapply same_members_trans; eassumption|].
      rewrite Hnev, Hncv in Hs. exact Hs.
Qed.

(** X14. On a constructed solver, with a sort functor that returns
    permutations of [0 .. ncv-1], every turn of [compute] asks the engine
    to extend either from size 0 (the first turn) or from a restart size
    between [nev] and [ncv], both included: the padding for conjugate pairs
    is not clamped, but it cannot carry the size past [ncv]. *)
Theorem restart_sizes_in_range (selection : SortRule) (maxit : Z) (tol : S)
        (s : Solver) (i : Z) (l : Locals) (s1 : Solver) :
  constructed s ->
  (forall rule v, Permutation (SortEigenvalue rule v (m_ncv s))
                              (seq 0 (Z.to_nat (m_ncv s)))) ->
  reaches selection maxit tol (0, initial_locals s, s) (i, l, s1) ->
  (i = 0 /\ sizeV l = 0) \/
  (0 < i <= maxit /\ m_nev s <= sizeV l <= m_ncv s).
Proof.
  intros [[Hnev _] [Hncv _]] Hsort Hreach.
  destruct (reaches_restart_size _ _ _ _ _ Hreach _ _ _ _ _ _ eq_refl eq_refl
              ltac:(lia) Hsort) as [(-> & -> & ->)|(Hi & _ & Hs)].
  - left. split; reflexivity.
  - right. split; assumption.
Qed.

(** *** Schur reordering: where it rotates and how often *)

Lemma find_target_bound (n i : nat) (rest : list nat) :
  (i < n)%nat -> Permutation (seq 0 i ++ rest) (seq 0 n) ->
  (i <= find_target i (seq 0 i ++ rest) < n)%nat.
Proof.
  intros Hi Hperm.
  assert (Hin : In i rest).
  { assert (H : In i (seq 0 i ++ rest)).
    { apply (Permutation_in _ (Permutation_sym Hperm)), in_seq. lia. }
    apply in_app_or in H as [H|H]; [apply in_seq in H; lia|exact H]. }
  pose proof (Permutation_length Hperm) as Hlen.
  rewrite length_app, !length_seq in Hlen.
  unfold find_target.
  replace (skipn i (seq 0 i ++ rest)) with rest.
  2:{ rewrite skipn_app, length_seq, Nat.sub_diag, skipn_all2 by (rewrite length_seq; lia).
      reflexivity. }
  destruct (find_from_split i i rest Hin) as (mid & post & -> & ->).
  rewrite length_app in Hlen. cbn [length] in Hlen. lia.
Qed.

(** The positions recorded in the first [m] outer turns. *)
Lemma swaps_outer_range (n m : nat) (P : list nat) :
  (m <= n - 1)%nat -> Permutation P (seq 0 n) ->
  Forall (fun k => (k + 1 < n)%nat) (snd (fold_left swaps_outer (seq 0 m) (P, []))) /\
  (length (snd (fold_left swaps_outer (seq 0 m) (P, []))) <= m * (n - 1))%nat.
Proof.
  intros Hm Hperm. induction m as [|m IH].
  - cbn. split; [constructor|lia].
  - destruct IH as [IH1 IH2]; [lia|].
    destruct (swaps_outer_prefix n m P ltac:(lia) Hperm) as (rest & ks & E & EP).
    rewrite E in IH1, IH2. cbn [snd] in IH1, IH2.
    assert (Hp : Permutation (seq 0 m ++ rest) (seq 0 n)).
    { rewrite EP. etransitivity; [apply apply_swaps_perm|exact Hperm]. }
    pose proof (find_target_bound n m rest ltac:(lia) Hp) as Hj.
    rewrite seq_S, fold_left_app, E. cbn [fold_left Nat.add].
    set (j := find_target m (seq 0 m ++ rest)) in *.
    assert (Es : swaps_outer (seq 0 m ++ rest, ks) m
                 = (apply_swaps (down_range m j) (seq 0 m ++ rest),
                    ks ++ down_range m j))
      by (unfold swaps_outer; cbn [fst snd]; apply swaps_inner).
    rewrite Es. cbn [snd].
    split.
    + apply Forall_app. split; [exact IH1|].
      apply Forall_forall. intros k Hk. unfold down_range in Hk.
      apply in_rev, in_seq in Hk. lia.
    + rewrite length_app. unfold down_range. rewrite length_rev, length_seq. nia.
Qed.

Lemma list_as_gather {A : Type} (dflt : A) (l : list A) :
  l = map (fun j => nth j l dflt) (seq 0 (length l)).
Proof.
  apply (nth_ext _ _ dflt (nth O l dflt)).
  - rewrite length_map, length_seq. reflexivity.
  - intros j Hj.
    rewrite (map_nth (fun j => nth j l dflt) (seq 0 (length l)) O j).
    rewrite seq_nth by exact Hj. reflexivity.
Qed.

Lemma apply_swaps_as_gather {A : Type} (dflt : A) (ks : list nat) (l : list A) :
  apply_swaps ks l = map (fun j => nth j l dflt) (apply_swaps ks (seq 0 (length l))).
Proof. rewrite apply_swaps_map, <- list_as_gather. reflexivity. Qed.

(** Rotations that each exchange two neighbouring diagonal entries move
    the diagonal of [T] as the transpositions move a list. *)
Lemma rotations_move_diagonal (n : nat) (Tri : Matrix -> Prop) (ks : list nat) :
  (forall U1 T1 k, Tri T1 -> (k + 1 < n)%nat ->
     Tri (snd (givens_at (U1, T1) k)) /\
     diagonal (snd (givens_at (U1, T1) k)) = swap_at k (diagonal T1)) ->
  Forall (fun k => (k + 1 < n)%nat) ks ->
  forall U1 T1, Tri T1 ->
  diagonal (snd (fold_left givens_at ks (U1, T1))) = apply_swaps ks (diagonal T1).
Proof.
  intros Hrot. induction 1 as [|k ks Hk Hks IH]; intros U1 T1 Ht; [reflexivity|].
  cbn [fold_left]. rewrite apply_swaps_cons.
  destruct (Hrot U1 T1 k Ht Hk) as [Ht' Hd].
  destruct (givens_at (U1, T1) k) as [U2 T2]. cbn [snd] in Ht', Hd.
  rewrite (IH U2 T2 Ht'), Hd. reflexivity.
Qed.


(** X15. Every rotation [ordschur] applies is at a position [k] with
    [k + 1] inside the matrix: the search for the next target always
    succeeds, so no entry outside [T], [U] or the permutation vector is
    read or written; and it applies at most [(n - 1)^2] rotations. *)
Theorem ordschur_rotations_in_range (select : list bool) :
  Forall (fun k => (k + 1 < length select)%nat) (ordschur_swaps select) /\
  (length (ordschur_swaps select) <= (length select - 1) * (length select - 1))%nat.
Proof.
  unfold ordschur_swaps.
  assert (Hlen : length (build_permutation select) = length select)
    by (rewrite build_permutation_target, length_map, length_seq; reflexivity).
  assert (Hperm : Permutation (build_permutation select) (seq 0 (length select))).
  { rewrite build_permutation_target.
    transitivity (map (target select) (kept select ++ discarded select)).
    - apply Permutation_map, Permutation_sym, kept_discarded_perm.
    - rewrite target_on_partition. reflexivity. }
  rewrite Hlen.
  apply (swaps_outer_range (length select) (length select - 1) _ (le_n _) Hperm).
Qed.

Lemma swaps_outer_sorted (n m : nat) (tr : list nat) :
  (m <= n)%nat ->
  fold_left swaps_outer (seq 0 m) (seq 0 n, tr) = (seq 0 n, tr).
Proof.
  intros Hm. induction m as [|m IH]; [reflexivity|].
  rewrite seq_S, fold_left_app, IH by lia. cbn [fold_left Nat.add].
  unfold swaps_outer. cbn [fst snd]. unfold find_target.
  rewrite skipn_seq. cbn [Nat.add].
  replace (n - m)%nat with (Datatypes.S (n - m - 1)) by lia.
  cbn [seq find_from]. rewrite Nat.eqb_refl.
  unfold down_range. rewrite Nat.sub_diag. reflexivity.
Qed.

(** X16. A mask in which no discarded position precedes a kept one (all
    kept, all discarded, or the kept ones in front) asks for no work:
    [ordschur] applies no rotation and returns [U] and [T] as they are. *)
Theorem ordschur_sorted_mask_is_noop (U T : Matrix) (select : list bool) :
  kept select ++ discarded select = seq 0 (length select) ->
  ordschur_swaps select = [] /\
  ordschur U T select = (U, T) /\
  snd (ordschur_run U T select) = seq 0 (length select).
Proof.
  intros Hsorted.
  assert (Hbuild : build_permutation select = seq 0 (length select)).
  { rewrite build_permutation_target. rewrite <- Hsorted at 1.
    apply target_on_partition. }
  assert (Hsw : fold_left swaps_outer (seq 0 (length select - 1))
                          (seq 0 (length select), [])
                = (seq 0 (length select), []))
    by (apply swaps_outer_sorted; lia).
  destruct (ordschur_outer_trace (seq 0 (length select - 1)) (U, T)
              (seq 0 (length select)) []) as (ks & Etr & Erun).
  rewrite Hsw in Etr, Erun. cbn [fst snd app] in Etr, Erun. subst ks.
  cbn [fold_left] in Erun.
  unfold ordschur_swaps, ordschur, ordschur_run.
  rewrite Hbuild, length_seq, Hsw, Erun. repeat split; reflexivity.
Qed.

End Properties.

(** ** Concrete runs *)

Import Toy.

#[export] Instance Z_order : ScalarOrder Z.
Proof.
  split; cbn.
  - intros a b H. apply Z.ltb_lt in H. apply Z.ltb_ge. lia.
  - intros a b H1 H2. apply Z.ltb_ge in H1. apply Z.ltb_ge in H2. lia.
Qed.

Lemma constructor_yields_solvers :
  KrylovSchurGEigsBase_lvalue diag12 tt 1 2 = inr solver12 /\
  KrylovSchurGEigsBase_lvalue stalling tt 1 2 = inr solver_stalling /\
  KrylovSchurGEigsBase_lvalue degenerate tt 1 2 = inr solver_degenerate /\
  KrylovSchurGEigsBase_lvalue wide tt 1 4 = inr solver14.
Proof. repeat split; reflexivity. Qed.

(** C1, on two runs. The operator is [diag(1, 2)] with basis [V = I],
    [nev = 1], [ncv = 2], rule [LargestMagn]; the Ritz values are 1 and 2,
    in the order of the rule 2 then 1, and the Ritz vector of 2 is [(0, 1)].
    - With [tol = 1] the first turn converges; [compute] stores eigenvalue 2
      and the product [(0, 1)] in [m_evecs], but [eigenvectors()] hands out
      the first column [(1, 0)] of the basis.
    - With [maxit = 1] and [tol = 0] the only turn does not converge; the
      test [i == maxit] fails inside the loop, the turn goes on to restart
      and overwrites [d] with the diagonal of [T], and [eigenvalues()]
      reports 1, the first diagonal entry, where the first Ritz value in
      the order of the rule is 2; [eigenvectors()] is empty. *)
Theorem compute_reports_other_eigenpairs :
  permute (0, 0) ritz_order ritz_values = [(2, 0); (1, 0)] /\
  real_part (mat_mul_c (matrix_V (m_fac seeded12))
                       (leftCols 1 (permute [] ritz_order ritz_vectors))) = [[0; 1]] /\
  (* the run that converges *)
  fst converged_run = inr 1 /\
  info (snd converged_run) = Successful /\
  num_iterations (snd converged_run) = 1 /\
  eigenvalues (snd converged_run) = [2] /\
  m_evecs (snd converged_run) = [[0; 1]] /\
  eigenvectors (snd converged_run) = [[1; 0]] /\
  (* the run that uses up its cap *)
  fst capped_run = inr 0 /\
  info (snd capped_run) = NotConverging /\
  eigenvalues (snd capped_run) = [1] /\
  eigenvectors (snd capped_run) = [].
Proof. vm_compute. repeat split; reflexivity. Qed.

(** C2: the claim as stated fails on a second call. The first call uses
    up its cap of one turn and sets the status to [NotConverging]. The
    second call, on the same solver, restarts once; in its second turn the
    engine reports that it cannot extend the basis, the call returns 0 with
    empty buffers, and the status is still [NotConverging]. *)
Lemma breakdown_keeps_earlier_status :
  info seeded_stalling = NotComputed /\
  fst first_call = inr 0 /\
  info (snd first_call) = NotConverging /\
  num_iterations (snd first_call) = 2 /\
  fst second_call = inr 0 /\
  eigenvalues (snd second_call) = [] /\
  m_evecs (snd second_call) = [] /\
  num_iterations (snd second_call) = 2 /\
  info (snd second_call) = NotConverging /\
  info (snd second_call) <> NotComputed.
Proof. vm_compute. repeat split; try reflexivity. discriminate. Qed.

Lemma compute_breakdown_stops_witness :
  exists l s1,
    reaches LargestMagn 2 0 (0, initial_locals (snd first_call), snd first_call)
            (1, l, s1) /\
    1 < 2 /\
    fst (fst (factorize_from (sizeV l) (m_ncv s1) (m_fac s1) (m_nmatop s1))) = true /\
    exists s',
      second_call = (inr 0, s') /\
      eigenvalues s' = [] /\ m_evecs s' = [] /\
      info s' = info (snd first_call) /\
      num_iterations s' = num_iterations (snd first_call).
Proof.
  pose (s := snd first_call).
  destruct (compute_body LargestMagn 2 0 0 (initial_locals s) s) as [l s1| | |] eqn:Hbody;
    try (vm_compute in Hbody; discriminate).
  assert (H0 : reaches LargestMagn 2 0 (0, initial_locals s, s) (1, l, s1)).
  { apply (reaches_next _ _ _ 0 (initial_locals s) s l s1);
      [lia|exact Hbody|apply reaches_here]. }
  assert (H1 : 1 < 2) by lia.
  assert (H2 : fst (fst (factorize_from (sizeV l) (m_ncv s1) (m_fac s1) (m_nmatop s1)))
               = true).
  { vm_compute in Hbody. injection Hbody as <- <-. reflexivity. }
  exists l, s1. split; [exact H0|]. split; [exact H1|]. split; [exact H2|].
  destruct (compute_breakdown_stops LargestMagn LargestAlge 2 0 s 1 l s1 H0 H1 H2)
    as (s' & E & P1 & P2 & P3 & P4 & _).
  exists s'. repeat split; assumption.
Defined.

(** C3: the claim as stated fails in two ways. On the degenerate operator
    the call returns 0 from the breakdown branch, with the result buffers
    emptied and no exception; and where the exception is thrown, the
    engine has been run before it and the operation counter has moved. *)
Lemma unsupported_rule_is_checked_late :
  supported LargestAlge = false /\
  fst (compute LargestAlge 1000 1 LargestAlge (init_random solver_degenerate)) = inr 0 /\
  m_evals (init_random solver_degenerate) = [0; 0] /\
  m_evals (snd (compute LargestAlge 1000 1 LargestAlge (init_random solver_degenerate))) = [] /\
  fst (compute LargestAlge 1000 1 LargestAlge seeded12) = inl invalid_argument /\
  num_operations seeded12 = 1 /\
  num_operations (snd (compute LargestAlge 1000 1 LargestAlge seeded12)) = 3.
Proof. vm_compute. repeat split; reflexivity. Qed.

Lemma compute_unsupported_rule_throws_witness :
  supported SmallestAlge = false /\ 1 <= 1000 /\
  fst (fst (factorize_from 0 (m_ncv seeded12) (m_fac seeded12) (m_nmatop seeded12))) = false /\
  exists s',
    compute SmallestAlge 1000 1 LargestAlge seeded12 = (inl invalid_argument, s') /\
    num_iterations s' = 0 /\ info s' = NotComputed /\ m_evals s' = [0; 0].
Proof.
  assert (H1 : supported SmallestAlge = false) by reflexivity.
  assert (H2 : 1 <= 1000) by lia.
  assert (H3 : fst (fst (factorize_from 0 (m_ncv seeded12) (m_fac seeded12)
                                        (m_nmatop seeded12))) = false) by reflexivity.
  split; [exact H1|]. split; [exact H2|]. split; [exact H3|].
  destruct (compute_unsupported_rule_throws SmallestAlge LargestAlge 1000 1 seeded12 H1 H2 H3)
    as (s' & E & _ & _ & P3 & P4 & _ & _ & P7).
  exists s'. repeat split; assumption.
Defined.

Lemma num_converged_threshold_witness :
  (Z.to_nat (m_nev solver12) <= length [(2, 0); (1, 0)])%nat /\
  (Z.to_nat (m_nev solver12) <= length [0; 3])%nat /\
  m_evals_conv (snd (num_converged 1 [(2, 0); (1, 0)] [0; 3] solver12)) = [true] /\
  fst (num_converged 1 [(2, 0); (1, 0)] [0; 3] solver12) = 1.
Proof.
  assert (H1 : (Z.to_nat (m_nev solver12) <= length [(2, 0); (1, 0)])%nat) by (cbn; lia).
  assert (H2 : (Z.to_nat (m_nev solver12) <= length [0; 3])%nat) by (cbn; lia).
  split; [exact H1|]. split; [exact H2|].
  destruct (num_converged_threshold 1 [(2, 0); (1, 0)] [0; 3] solver12 H1 H2)
    as (_ & _ & Hcount).
  split; [reflexivity|]. rewrite Hcount. reflexivity.
Defined.

Lemma nev_adjusted_refines_spec_witness :
  constructed solver14 /\
  nev_adjusted solver14 0 1 = nev_adjusted_spec 1 4 0 1 /\
  nev_adjusted_spec 1 4 0 1 = 3.
Proof.
  assert (H : constructed solver14) by (unfold constructed; cbn; lia).
  split; [exact H|]. split; [|reflexivity].
  exact (nev_adjusted_refines_spec solver14 0 1 H).
Defined.

Lemma nev_adjusted_bounds_witness :
  1 <= m_nev solver14 < m_ncv solver14 /\ 0 <= 0 <= m_nev solver14 /\
  m_nev solver14 <= nev_adjusted solver14 0 1 < m_ncv solver14.
Proof.
  assert (H1 : 1 <= m_nev solver14 < m_ncv solver14) by (cbn; lia).
  assert (H2 : 0 <= 0 <= m_nev solver14) by (cbn; lia).
  split; [exact H1|]. split; [exact H2|].
  exact (nev_adjusted_bounds solver14 0 1 H1 H2).
Defined.

(** C7: the claim as stated fails where a 2x2 block has no kept position.
    Position 0 is the only kept one and has no nonzero sub-diagonal
    neighbour; the pass worded for kept indices leaves the mask and
    [nev_new] alone, while the code keeps the block at positions 1 and 2 as
    well and raises [nev_new] from 1 to 3, which is [ncv]. *)
Lemma conjugate_pairs_keep_unselected_blocks :
  in_block block3 3 0 = false /\
  conjugate_pairs_kept_only block3 3 [0; 1; 2]%nat ([true; false; false], 1)
  = ([true; false; false], 1) /\
  conjugate_pairs block3 3 [0; 1; 2]%nat ([true; false; false], 1)
  = ([true; true; true], 3) /\
  conjugate_pairs block3 3 [0; 1; 2]%nat ([true; false; false], 1)
  <> conjugate_pairs_kept_only block3 3 [0; 1; 2]%nat ([true; false; false], 1).
Proof. vm_compute. repeat split; try reflexivity. discriminate. Qed.

Lemma conjugate_pairs_keeps_all_blocks_witness :
  length [true; false; false] = Z.to_nat 3 /\
  Permutation [2; 0; 1]%nat (seq 0 (Z.to_nat 3)) /\
  fst (conjugate_pairs block3 3 [2; 0; 1]%nat ([true; false; false], 1))
  = [true; true; true] /\
  snd (conjugate_pairs block3 3 [2; 0; 1]%nat ([true; false; false], 1)) = 3 /\
  nth 1 (fst (conjugate_pairs block3 3 [2; 0; 1]%nat ([true; false; false], 1))) false
  = nth 1 [true; false; false] false || in_block block3 3 1.
Proof.
  assert (H1 : length [true; false; false] = Z.to_nat 3) by reflexivity.
  assert (H2 : Permutation [2; 0; 1]%nat (seq 0 (Z.to_nat 3))).
  { change (seq 0 (Z.to_nat 3)) with [0; 1; 2]%nat.
    apply (Permutation_cons_app [0; 1]%nat [] 2%nat). reflexivity. }
  split; [exact H1|]. split; [exact H2|].
  split; [reflexivity|]. split; [reflexivity|].
  destruct (conjugate_pairs_keeps_all_blocks block3 3 [2; 0; 1]%nat
              [true; false; false] 1 H1 H2) as (_ & Hexact & _).
  apply Hexact. cbn. lia.
Defined.


(** C10: the claim as stated fails on the operation counter whenever the
    engine counts an operator application while it is seeded; the status
    of an earlier run is kept, as the claim says. *)
Lemma init_counter_is_the_engines :
  num_operations solver12 = 0 /\
  num_operations (init_random solver12) = 1 /\
  num_operations (init [1; 1] solver12) = 1 /\
  num_operations (init_random solver12) <> 0 /\
  info (snd converged_run) = Successful /\
  info (init_random (snd converged_run)) = Successful /\
  num_iterations (init_random (snd converged_run)) = 0.
Proof. vm_compute. repeat split; try reflexivity. discriminate. Qed.

(** ** Concrete runs for the further properties *)

Lemma insert_by_perm (key : nat -> Z) (j : nat) (l : list nat) :
  Permutation (insert_by key j l) (j :: l).
Proof.
  induction l as [|h t IH]; [reflexivity|].
  cbn [insert_by]. destruct (key j <? key h); [reflexivity|].
  etransitivity; [apply perm_skip, IH|apply perm_swap].
Qed.

Lemma sort_indices_perm (rule : SortRule) (v : list (Z * Z)) (n : Z) :
  Permutation (sort_indices rule v n) (seq 0 (Z.to_nat n)).
Proof.
  unfold sort_indices.
  set (key := fun i => sort_key rule (nth i v (0, 0))).
  assert (G : forall l acc,
             Permutation (fold_left (fun acc j => insert_by key j acc) l acc) (l ++ acc)).
  { induction l as [|a l IH]; intros acc; [reflexivity|].
    cbn [fold_left]. etransitivity; [apply IH|].
    etransitivity; [apply Permutation_app_head, insert_by_perm|].
    apply Permutation_sym, Permutation_middle. }
  rewrite <- (app_nil_r (seq 0 (Z.to_nat n))) at 2. apply G.
Qed.

Lemma seeded12_constructed : constructed seeded12.
Proof. unfold constructed. cbn. lia. Defined.

Lemma compute_supported_rule_returns_witness :
  1 <= 1000 /\ supported LargestMagn = true /\ constructed seeded12 /\
  exists r, fst converged_run = inr r /\ 0 <= r <= 1.
Proof.
  assert (H1 : supported LargestMagn = true) by reflexivity.
  split; [lia|]. split; [exact H1|]. split; [exact seeded12_constructed|].
  exact (compute_supported_rule_returns LargestMagn LargestAlge 1000 1 seeded12
           ltac:(lia) H1 seeded12_constructed).
Defined.

Lemma compute_throw_keeps_results_witness :
  fst (compute LargestAlge 1000 1 LargestAlge seeded12) = inl invalid_argument /\
  info (snd (compute LargestAlge 1000 1 LargestAlge seeded12)) = info seeded12 /\
  eigenvalues (snd (compute LargestAlge 1000 1 LargestAlge seeded12)) = [0; 0].
Proof.
  assert (H1 : fst (compute LargestAlge 1000 1 LargestAlge seeded12)
               = inl invalid_argument) by reflexivity.
  split; [exact H1|].
  destruct (compute_throw_keeps_results LargestAlge LargestAlge 1000 1 seeded12 _ H1)
    as (_ & _ & P1 & _ & P2 & _).
  split; [exact P1|]. rewrite P2. reflexivity.
Defined.

Lemma compute_status_tells_outcome_witness :
  1 <= 1000 /\ constructed seeded12 /\ info seeded12 = NotComputed /\
  info (snd converged_run) = Successful /\
  fst converged_run = inr (m_nev seeded12) /\
  exists i, 0 <= i < 1000 /\
            num_iterations (snd converged_run) = num_iterations seeded12 + (i + 1).
Proof.
  assert (H1 : info seeded12 = NotComputed) by reflexivity.
  assert (H2 : info (snd converged_run) = Successful) by reflexivity.
  split; [lia|].
  split; [exact seeded12_constructed|]. split; [exact H1|]. split; [exact H2|].
  destruct (compute_status_tells_outcome LargestMagn LargestAlge 1000 1 seeded12
              ltac:(lia) seeded12_constructed H1) as (_ & P & _).
  exact (P H2).
Defined.

Lemma eigenvectors_columns_match_return_witness :
  1 <= 1000 /\ info seeded12 = NotComputed /\
  info (snd converged_run) <> NotComputed /\
  exists r,
    fst converged_run = inr r /\
    eigenvectors (snd converged_run)
    = leftCols (Z.to_nat r) (matrix_V (m_fac (snd converged_run))) /\
    (length (eigenvalues (snd converged_run)) <= Z.to_nat (m_nev seeded12))%nat.
Proof.
  assert (H1 : 1 <= 1000) by lia.
  assert (H2 : info seeded12 = NotComputed) by reflexivity.
  assert (H3 : info (snd converged_run) <> NotComputed) by (vm_compute; discriminate).
  split; [exact H1|]. split; [exact H2|]. split; [exact H3|].
  exact (eigenvectors_columns_match_return LargestMagn LargestAlge 1000 1 seeded12
           H1 H2 H3).
Defined.

Lemma solver_ranges_are_kept_witness :
  constructed seeded12 /\
  constructed (init [1; 1] seeded12) /\
  constructed (init_random seeded12) /\
  constructed (snd capped_run).
Proof.
  split; [exact seeded12_constructed|].
  destruct (solver_ranges_are_kept LargestMagn LargestAlge 1 0 [1; 1] seeded12
              seeded12_constructed) as ((_ & P1) & (_ & P2) & (_ & P3)).
  split; [exact P1|]. split; [exact P2|exact P3].
Defined.

Lemma eigenvectors_empty_after_init_witness :
  0 <= 5 /\ constructed (snd converged_run) /\
  eigenvectors (snd converged_run) = [[1; 0]] /\
  eigenvectors_n 5 (init_random (snd converged_run)) = [] /\
  eigenvectors (init_random (snd converged_run)) = [] /\
  length (eigenvalues (init_random (snd converged_run))) = 2%nat.
Proof.
  assert (H1 : 0 <= 5) by lia.
  assert (H2 : constructed (snd converged_run)).
  { unfold constructed.
    change (m_nev (snd converged_run)) with 1.
    change (m_n (snd converged_run)) with 2.
    change (m_ncv (snd converged_run)) with 2. lia. }
  split; [exact H1|]. split; [exact H2|]. split; [reflexivity|].
  destruct (eigenvectors_empty_after_init [1; 1] 5 (snd converged_run) H1 H2)
    as (_ & _ & P3 & P4 & _ & P6).
  split; [exact P3|]. split; [exact P4|exact P6].
Defined.

Lemma constructor_establishes_ranges_witness :
  KrylovSchurGEigsBase_rvalue diag12 tt 1 2 = inr solver12_owned /\
  2 <= rows diag12 /\ m_ncv solver12_owned = 2 /\
  m_op_container solver12_owned = [diag12].
Proof.
  assert (H1 : KrylovSchurGEigsBase_rvalue diag12 tt 1 2 = inr solver12_owned)
    by reflexivity.
  split; [exact H1|].
  destruct (constructor_establishes_ranges diag12 tt 1 2 _ (or_intror H1))
    as (_ & P2 & _ & _ & P5 & _ & _ & P8 & _).
  split; [exact P2|]. split; [exact P5|exact (P8 H1)].
Defined.

Lemma constructor_rejects_small_operators_witness :
  rows single <= 1 /\
  KrylovSchurGEigsBase_lvalue single tt 1 1 = inl invalid_argument /\
  KrylovSchurGEigsBase_rvalue single tt 1 1 = inl invalid_argument.
Proof.
  assert (H1 : rows single <= 1) by (cbn; lia).
  split; [exact H1|].
  exact (constructor_rejects_small_operators single tt 1 1 H1).
Defined.

Lemma nev_adjusted_at_least_two_witness :
  1 <= m_nev solver14 < m_ncv solver14 /\ 3 < m_ncv solver14 /\ 0 <= 0 /\
  2 <= nev_adjusted solver14 0 0.
Proof.
  assert (H1 : 1 <= m_nev solver14 < m_ncv solver14) by (cbn; lia).
  assert (H2 : 3 < m_ncv solver14) by (cbn; lia).
  assert (H3 : 0 <= 0) by lia.
  split; [exact H1|]. split; [exact H2|]. split; [exact H3|].
  exact (nev_adjusted_at_least_two solver14 0 0 H1 H2 H3).
Defined.

Lemma nev_adjusted_stagnation_step_witness :
  0 <= 1 /\
  nev_adjusted solver14 0 0 <= nev_adjusted solver14 0 1 <= nev_adjusted solver14 0 0 + 1.
Proof.
  assert (H1 : 0 <= 1) by lia.
  split; [exact H1|]. exact (nev_adjusted_stagnation_step solver14 0 0 1 H1).
Defined.

Lemma conjugate_pairs_without_blocks_witness :
  (forall k, seqb (coeff diag22 (k + 1) k) szero = true) /\
  conjugate_pairs diag22 2 [1; 0]%nat ([false; true], 1) = ([false; true], 1).
Proof.
  assert (H1 : forall k, seqb (coeff diag22 (k + 1) k) szero = true)
    by (intros [|[|[|k]]]; reflexivity).
  split; [exact H1|].
  exact (conjugate_pairs_without_blocks diag22 2 [1; 0]%nat [false; true] 1 H1).
Defined.

Lemma restart_size_counts_kept_witness :
  Permutation [1; 0]%nat (seq 0 (Z.to_nat 2)) /\ 0 <= 1 <= 2 /\
  restart_mask 2 [1; 0]%nat 1 = [false; true] /\
  snd (conjugate_pairs block22 2 [1; 0]%nat (restart_mask 2 [1; 0]%nat 1, 1))
  = Z.of_nat (length (kept (fst (conjugate_pairs block22 2 [1; 0]%nat
                                   (restart_mask 2 [1; 0]%nat 1, 1))))) /\
  snd (conjugate_pairs block22 2 [1; 0]%nat (restart_mask 2 [1; 0]%nat 1, 1)) = 2.
Proof.
  assert (H1 : Permutation [1; 0]%nat (seq 0 (Z.to_nat 2))) by apply perm_swap.
  assert (H2 : 0 <= 1 <= 2) by lia.
  split; [exact H1|]. split; [exact H2|]. split; [reflexivity|].
  destruct (restart_size_counts_kept block22 2 [1; 0]%nat 1 H1 H2) as (_ & _ & P & _).
  split; [exact P|reflexivity].
Defined.

Lemma restart_sizes_in_range_witness :
  constructed (snd first_call) /\
  exists l s1,
    reaches LargestMagn 2 0 (0, initial_locals (snd first_call), snd first_call)
            (1, l, s1) /\
    m_nev (snd first_call) <= sizeV l <= m_ncv (snd first_call).
Proof.
  pose (s := snd first_call).
  assert (Hc : constructed s).
  { unfold constructed.
    change (m_nev s) with 1. change (m_n s) with 2. change (m_ncv s) with 2. lia. }
  assert (Hsort : forall rule v,
             Permutation (SortEigenvalue rule v (m_ncv s)) (seq 0 (Z.to_nat (m_ncv s))))
    by (intros rule v; apply sort_indices_perm).
  destruct (compute_body LargestMagn 2 0 0 (initial_locals s) s) as [l s1| | |] eqn:Hbody;
    try (vm_compute in Hbody; discriminate).
  assert (H0 : reaches LargestMagn 2 0 (0, initial_locals s, s) (1, l, s1)).
  { apply (reaches_next _ _ _ 0 (initial_locals s) s l s1);
      [lia|exact Hbody|apply reaches_here]. }
  split; [exact Hc|]. exists l, s1. split; [exact H0|].
  destruct (restart_sizes_in_range LargestMagn 2 0 s 1 l s1 Hc Hsort H0)
    as [[H _]|[_ H]]; [discriminate|exact H].
Defined.

Lemma ordschur_sorted_mask_is_noop_witness :
  kept [true; true; false] ++ discarded [true; true; false] = seq 0 3 /\
  ordschur (identity 3) [[1; 0; 0]; [0; 2; 0]; [0; 0; 3]] [true; true; false]
  = (identity 3, [[1; 0; 0]; [0; 2; 0]; [0; 0; 3]]).
Proof.
  assert (H1 : kept [true; true; false] ++ discarded [true; true; false]
               = seq 0 (length [true; true; false])) by reflexivity.
  split; [exact H1|].
  destruct (ordschur_sorted_mask_is_noop (identity 3)
              [[1; 0; 0]; [0; 2; 0]; [0; 0; 3]] [true; true; false] H1) as (_ & P & _).
  exact P.
Defined.
